(** * projectTracker front end: session gate and live detection client

    A shallow embedding of [frontend/auth.js] (the session gate, lines 1-47,
    and the live detection client, from line 47 on) together with the
    properties its specification states.

    Browser values are modelled as the scripts see them:
    - a JavaScript string is its sequence of UTF-16 code units, [list N];
      [lit] gives the code units of an ASCII literal of the source;
    - [JSON.parse] and [JSON.stringify] are the functions of the language, on
      the text in storage; an object is the list of its own properties;
    - [localStorage] is a finite map from keys to strings (its quota is not
      modelled: [setItem] always succeeds);
    - the event loop is a step function on an explicit state, one step per
      task the browser runs: an event handler, a timer callback, an
      animation-frame callback, the continuation of an [await];
    - a handler that throws keeps what it wrote before the throw.

    What the scripts take from the host without it being fixed by the
    language (the names built-in prototypes define, the text of a number,
    the text of an error) is a parameter, the classes [Host] and [Display].

    The modules [JS], [Auth], [Stream] and [Batch] hold the embedding; the
    modules that follow them hold its properties. *)

From Stdlib Require Import ZArith NArith Ascii String List Bool Lia.
From Stdlib.Strings Require Byte.
From Stdlib Require DecimalString.
From stdpp Require Import base option list gmap strings.

Local Open Scope N_scope.

(** ** JavaScript strings *)

Abbreviation jsstring := (list N) (only parsing).

(** The code units of a literal of the source, which is ASCII. *)
Definition lit (s : string) : jsstring :=
  map N_of_ascii (list_ascii_of_string s).
Global Arguments lit : simpl never.

(** JSON text for examples, written with apostrophes for its quotation
    marks. *)
Definition json_text (s : string) : jsstring :=
  map (λ c, if c =? 39 then 34 else c) (lit s).

(** * JavaScript values and JSON *)

Module JS.

(** The exceptions the scripts can meet. *)
Inductive js_error :=
| SyntaxError        (* JSON.parse on text that is not JSON *)
| TypeError          (* a property of null or undefined *)
| RangeError.        (* an invalid array length *)

Global Instance js_error_eq_dec : EqDecision js_error.
Proof. solve_decision. Defined.

(** A call either returns or throws. *)
Inductive completion (A : Type) :=
| Normal (a : A)
| Thrown (e : js_error).
Arguments Normal {A} a.
Arguments Thrown {A} e.

Global Instance completion_ret : MRet completion := λ A a, Normal a.
Global Instance completion_bind : MBind completion := λ A B k m,
  match m with
  | Normal a => k a
  | Thrown e => Thrown e
  end.

(** What [JSON.parse] returns.  A number is kept as the text it was written
    with; an object is the list of its own properties in the order
    [JSON.stringify] and [for-in] visit them. *)
Local Unset Elimination Schemes.
Inductive json :=
| JNull
| JBool (b : bool)
| JNum (lexeme : jsstring)
| JStr (s : jsstring)
| JArr (items : list json)
| JObj (props : list (jsstring * json)).
Local Set Elimination Schemes.

(** A value a property read can give: [undefined], a value of the data, or
    one of the host's built-in functions and prototype objects. *)
Inductive jsval :=
| VUndefined
| VBuiltin
| VJson (j : json).

(** What the script relies on the host for, beyond what is modelled here:
    which property names a value inherits from the built-in prototypes
    ([None] stands for a built-in itself), and the decimal text of the double
    a numeric literal denotes ([Number::toString]). *)
Class Host := {
  inherits : option json → jsstring → bool;
  num_to_string : jsstring → jsstring
}.

(** ** Lexical matters *)

Definition is_ws (c : N) : bool :=
  (c =? 32) || (c =? 9) || (c =? 10) || (c =? 13).

Fixpoint skip_ws (s : jsstring) : jsstring :=
  match s with
  | c :: r => if is_ws c then skip_ws r else s
  | [] => []
  end.

Definition is_digit (c : N) : bool := (48 <=? c) && (c <=? 57).

(** The longest prefix of digits, and what follows it. *)
Fixpoint digits (s : jsstring) : jsstring * jsstring :=
  match s with
  | c :: r =>
      if is_digit c then let '(d, r') := digits r in (c :: d, r') else ([], s)
  | [] => ([], [])
  end.

(** [prefix p s]: what follows [p] in [s], if [s] starts with [p]. *)
Fixpoint strip (p s : jsstring) : option jsstring :=
  match p, s with
  | [], _ => Some s
  | a :: p, b :: s => if a =? b then strip p s else None
  | _ :: _, [] => None
  end.

(** *** Numbers

    An optional minus sign; a zero, or a non-zero digit and further digits;
    optionally a point and one digit or more; optionally an exponent: e or E,
    an optional sign, one digit or more. *)

Definition number_sign (s : jsstring) : jsstring * jsstring :=
  match s with
  | c :: r => if c =? 45 then ([c], r) else ([], s)
  | [] => ([], s)
  end.

Definition number_int (s : jsstring) : option (jsstring * jsstring) :=
  match s with
  | c :: r =>
      if c =? 48 then Some ([c], r)
      else if is_digit c then Some (digits s)
      else None
  | [] => None
  end.

Definition number_frac (s : jsstring) : option (jsstring * jsstring) :=
  match s with
  | c :: r =>
      if c =? 46 then
        match digits r with
        | ([], _) => None
        | (d, r') => Some (c :: d, r')
        end
      else Some ([], s)
  | [] => Some ([], s)
  end.

Definition number_exp (s : jsstring) : option (jsstring * jsstring) :=
  match s with
  | c :: r =>
      if (c =? 101) || (c =? 69) then
        let '(sg, r1) :=
          match r with
          | c' :: r' => if (c' =? 43) || (c' =? 45) then ([c'], r') else ([], r)
          | [] => ([], r)
          end in
        match digits r1 with
        | ([], _) => None
        | (d, r2) => Some (c :: sg ++ d, r2)
        end
      else Some ([], s)
  | [] => Some ([], s)
  end.

Definition parse_number (s : jsstring) : option (jsstring * jsstring) :=
  let '(sg, s1) := number_sign s in
  '(i, s2) ← number_int s1;
  '(f, s3) ← number_frac s2;
  '(e, s4) ← number_exp s3;
  Some (sg ++ i ++ f ++ e, s4).

(** *** Strings *)

Definition hex_digit (c : N) : option N :=
  if is_digit c then Some (c - 48)
  else if (97 <=? c) && (c <=? 102) then Some (c - 87)
  else if (65 <=? c) && (c <=? 70) then Some (c - 55)
  else None.

(** The character a single-letter escape stands for. *)
Definition unescape (c : N) : option N :=
  if c =? 34 then Some 34        (* quotation mark *)
  else if c =? 92 then Some 92   (* backslash *)
  else if c =? 47 then Some 47   (* solidus *)
  else if c =? 98 then Some 8    (* b: backspace *)
  else if c =? 102 then Some 12  (* f: form feed *)
  else if c =? 110 then Some 10  (* n: line feed *)
  else if c =? 114 then Some 13  (* r: carriage return *)
  else if c =? 116 then Some 9   (* t: tab *)
  else None.

(** The characters of a string after its opening quote, up to the closing
    one, and what follows. *)
Fixpoint parse_chars (s : jsstring) : option (jsstring * jsstring) :=
  match s with
  | [] => None
  | c :: r =>
      if c =? 34 then Some ([], r)
      else if c =? 92 then
        match r with
        | [] => None
        | e :: r1 =>
            if e =? 117 then
              match r1 with
              | h1 :: h2 :: h3 :: h4 :: r2 =>
                  a ← hex_digit h1; b ← hex_digit h2;
                  c' ← hex_digit h3; d ← hex_digit h4;
                  '(t, rest) ← parse_chars r2;
                  Some ((((a * 16 + b) * 16 + c') * 16 + d) :: t, rest)
              | _ => None
              end
            else
              u ← unescape e;
              '(t, rest) ← parse_chars r1;
              Some (u :: t, rest)
        end
      else if c <? 32 then None
      else '(t, rest) ← parse_chars r; Some (c :: t, rest)
  end.

(** ** Objects: own properties and their order *)

(** The number a canonical array index denotes: decimal digits without a
    leading zero, at most 2^32 - 2. *)
Definition decimal (s : jsstring) : N :=
  fold_left (λ n c, n * 10 + (c - 48)) s 0.

Definition array_index (k : jsstring) : option N :=
  match k with
  | [] => None
  | c :: r =>
      if forallb is_digit k && (negb (c =? 48) || bool_decide (r = []))
         && (decimal k <=? 4294967294)
      then Some (decimal k) else None
  end.

Definition has_own (k : jsstring) (props : list (jsstring * json)) : bool :=
  bool_decide (k ∈ props.*1).

Fixpoint own (k : jsstring) (props : list (jsstring * json)) : option json :=
  match props with
  | (k', v) :: ps => if bool_decide (k' = k) then Some v else own k ps
  | [] => None
  end.

(** Give an existing property a new value, where it stands. *)
Fixpoint redefine (k : jsstring) (v : json) (props : list (jsstring * json)) :=
  match props with
  | (k', v') :: ps =>
      if bool_decide (k' = k) then (k, v) :: ps else (k', v') :: redefine k v ps
  | [] => []
  end.

(** Add a new property with an index for a name: after the indices up to
    it (none is equal to it, the name being new), before everything else. *)
Fixpoint add_index (n : N) (k : jsstring) (v : json) (props : list (jsstring * json)) :=
  match props with
  | (k', v') :: ps =>
      match array_index k' with
      | Some n' => if n' <=? n then (k', v') :: add_index n k v ps
                   else (k, v) :: props
      | None => (k, v) :: props
      end
  | [] => [(k, v)]
  end.

(** [CreateDataProperty]: indices come first, in ascending order; other
    names follow in the order they were added. *)
Definition define (k : jsstring) (v : json) (props : list (jsstring * json)) :=
  if has_own k props then redefine k v props
  else match array_index k with
       | Some n => add_index n k v props
       | None => props ++ [(k, v)]
       end.

(** Names in the order the language lists them: no name twice, an index
    before every larger index, and no index after another name. *)
Fixpoint js_ordered (ks : list jsstring) : Prop :=
  match ks with
  | [] => True
  | k :: rest =>
      (k ∉ rest) ∧ js_ordered rest ∧
      match array_index k with
      | Some n =>
          Forall (λ k', match array_index k' with Some n' => n ≤ n' | None => True end) rest
      | None => Forall (λ k', array_index k' = None) rest
      end
  end.

(** Values that [JSON.stringify] writes and [JSON.parse] reads back as they
    were: their objects list their properties in order, and they hold no
    number (a number is read back as the text the host wrote for it). *)
Fixpoint storable (v : json) : Prop :=
  match v with
  | JNum _ => False
  | JArr items =>
      (fix all (l : list json) : Prop :=
         match l with [] => True | x :: l => storable x ∧ all l end) items
  | JObj props =>
      js_ordered props.*1 ∧
      (fix all (l : list (jsstring * json)) : Prop :=
         match l with [] => True | p :: l => storable p.2 ∧ all l end) props
  | JNull | JBool _ | JStr _ => True
  end.

(** ** [JSON.parse] *)

Fixpoint parse_value (fuel : nat) (s : jsstring) : option (json * jsstring) :=
  match fuel with
  | O => None
  | S fuel =>
      match skip_ws s with
      | [] => None
      | c :: r =>
          if c =? 123 then                        (* { *)
            match skip_ws r with
            | c' :: r' =>
                if c' =? 125 then Some (JObj [], r')
                else parse_members fuel r []
            | [] => None
            end
          else if c =? 91 then                    (* [ *)
            match skip_ws r with
            | c' :: r' =>
                if c' =? 93 then Some (JArr [], r')
                else parse_elements fuel r []
            | [] => None
            end
          else if c =? 34 then                    (* a string *)
            '(t, rest) ← parse_chars r; Some (JStr t, rest)
          else if c =? 116 then
            rest ← strip (lit "rue") r; Some (JBool true, rest)
          else if c =? 102 then
            rest ← strip (lit "alse") r; Some (JBool false, rest)
          else if c =? 110 then
            rest ← strip (lit "ull") r; Some (JNull, rest)
          else
            '(l, rest) ← parse_number (c :: r); Some (JNum l, rest)
      end
  end
with parse_members (fuel : nat) (s : jsstring) (acc : list (jsstring * json))
    : option (json * jsstring) :=
  match fuel with
  | O => None
  | S fuel =>
      match skip_ws s with
      | c :: r =>
          if c =? 34 then
            '(k, r1) ← parse_chars r;
            match skip_ws r1 with
            | c1 :: r2 =>
                if c1 =? 58 then                  (* : *)
                  '(v, r3) ← parse_value fuel r2;
                  match skip_ws r3 with
                  | c3 :: r4 =>
                      if c3 =? 44 then parse_members fuel r4 (define k v acc)
                      else if c3 =? 125 then Some (JObj (define k v acc), r4)
                      else None
                  | [] => None
                  end
                else None
            | [] => None
            end
          else None
      | [] => None
      end
  end
with parse_elements (fuel : nat) (s : jsstring) (acc : list json)
    : option (json * jsstring) :=
  match fuel with
  | O => None
  | S fuel =>
      '(v, r1) ← parse_value fuel s;
      match skip_ws r1 with
      | c :: r2 =>
          if c =? 44 then parse_elements fuel r2 (acc ++ [v])
          else if c =? 93 then Some (JArr (acc ++ [v]), r2)
          else None
      | [] => None
      end
  end.

(** The whole text must be one value.  A call of [parse_value] consumes a
    character before it calls itself again, with at most one call of
    [parse_members] or [parse_elements] in between, so twice the length of
    the text bounds the nesting ([parse_value_fuel] below). *)
Definition JSON_parse (text : jsstring) : completion json :=
  match parse_value (S (2 * length text)) text with
  | Some (v, rest) =>
      match skip_ws rest with
      | [] => Normal v
      | _ :: _ => Thrown SyntaxError
      end
  | None => Thrown SyntaxError
  end.

(** ** [JSON.stringify] *)

Definition hex_char (d : N) : N := if d <? 10 then 48 + d else 87 + d.

(** [\uXXXX], in lower-case hexadecimal. *)
Definition unicode_escape (c : N) : jsstring :=
  [92; 117; hex_char (c / 4096 mod 16); hex_char (c / 256 mod 16);
   hex_char (c / 16 mod 16); hex_char (c mod 16)].

Definition is_high_surrogate (c : N) : bool := (55296 <=? c) && (c <=? 56319).
Definition is_low_surrogate (c : N) : bool := (56320 <=? c) && (c <=? 57343).

(** One code unit that is not half of a surrogate pair. *)
Definition quote_unit (c : N) : jsstring :=
  if c =? 8 then [92; 98]
  else if c =? 9 then [92; 116]
  else if c =? 10 then [92; 110]
  else if c =? 12 then [92; 102]
  else if c =? 13 then [92; 114]
  else if c =? 34 then [92; 34]
  else if c =? 92 then [92; 92]
  else if (c <? 32) || is_high_surrogate c || is_low_surrogate c then unicode_escape c
  else [c].

(** The characters of [QuoteJSONString]: a surrogate pair stays as it is, a
    lone surrogate is escaped. *)
Fixpoint quote_chars (s : jsstring) : jsstring :=
  match s with
  | [] => []
  | c :: r =>
      match r with
      | d :: r' =>
          if is_high_surrogate c && is_low_surrogate d
          then c :: d :: quote_chars r'
          else quote_unit c ++ quote_chars r
      | [] => quote_unit c
      end
  end.

Definition quote (s : jsstring) : jsstring := [34] ++ quote_chars s ++ [34].

(** [items] separated by commas. *)
Fixpoint commas (items : list jsstring) : jsstring :=
  match items with
  | [] => []
  | [x] => x
  | x :: rest => x ++ [44] ++ commas rest
  end.

Section WithHost.
Context `{Host}.

(** A number that is not finite is written [null]. *)
Definition stringify_number (lexeme : jsstring) : jsstring :=
  let t := num_to_string lexeme in
  if bool_decide (t = lit "Infinity") || bool_decide (t = lit "-Infinity")
  then lit "null" else t.

Fixpoint JSON_stringify (v : json) : jsstring :=
  match v with
  | JNull => lit "null"
  | JBool true => lit "true"
  | JBool false => lit "false"
  | JNum l => stringify_number l
  | JStr s => quote s
  | JArr items => [91] ++ commas (map JSON_stringify items) ++ [93]
  | JObj props =>
      [123] ++ commas (map (λ p, quote p.1 ++ [58] ++ JSON_stringify p.2) props)
        ++ [125]
  end.

(** The member [k:v] of an object, as it is written. *)
Definition member (p : jsstring * json) : jsstring :=
  quote p.1 ++ [58] ++ JSON_stringify p.2.

(** ** Reading and writing properties *)

(** [ToBoolean] *)
Definition truthy (v : jsval) : bool :=
  match v with
  | VUndefined => false
  | VBuiltin => true
  | VJson JNull => false
  | VJson (JBool b) => b
  | VJson (JNum l) => negb (bool_decide (num_to_string l = lit "0"))
  | VJson (JStr s) => negb (bool_decide (s = []))
  | VJson (JArr _) | VJson (JObj _) => true
  end.

(** [v === s] for a string [s]. *)
Definition strict_eq_string (v : jsval) (s : jsstring) : bool :=
  match v with
  | VJson (JStr t) => bool_decide (t = s)
  | _ => false
  end.

(** What the prototype chain of [v] gives for a name that [v] does not own. *)
Definition inherited (v : option json) (k : jsstring) : jsval :=
  if inherits v k then VBuiltin else VUndefined.

(** The decimal text of a natural number. *)
Definition decimal_text (n : nat) : jsstring :=
  lit (DecimalString.NilZero.string_of_uint (Nat.to_uint n)).

(** [v[k]] *)
Definition js_get (v : jsval) (k : jsstring) : completion jsval :=
  match v with
  | VUndefined | VJson JNull => Thrown TypeError
  | VBuiltin => Normal (inherited None k)
  | VJson (JObj props as j) =>
      Normal (match own k props with
              | Some x => VJson x
              | None => inherited (Some j) k
              end)
  | VJson (JArr items as j) =>
      Normal (match array_index k with
              | Some n =>
                  match items !! N.to_nat n with
                  | Some x => VJson x
                  | None => inherited (Some j) k
                  end
              | None =>
                  if bool_decide (k = lit "length")
                  then VJson (JNum (decimal_text (length items)))
                  else inherited (Some j) k
              end)
  | VJson (JStr s as j) =>
      Normal (match array_index k with
              | Some n =>
                  match s !! N.to_nat n with
                  | Some c => VJson (JStr [c])
                  | None => inherited (Some j) k
                  end
              | None =>
                  if bool_decide (k = lit "length")
                  then VJson (JNum (decimal_text (length s)))
                  else inherited (Some j) k
              end)
  | VJson j => Normal (inherited (Some j) k)
  end.

End WithHost.

(** [c[k] = {...props}], for a container [c] that [JSON.parse] returned: what
    [c] owns afterwards.
    - On an object the property is redefined or added, except that
      [__proto__], unless the object owns a property of that name, is the
      accessor of [Object.prototype]: the assignment replaces the prototype
      and adds no property.
    - On an array an index sets or appends an element (the holes it leaves
      are written [null]), [length] cannot be an object, and any other name
      is not an element.
    - On a string, a number or a boolean the assignment is dropped (the
      scripts do not run in strict mode). *)
Definition js_set_object (c : json) (k : jsstring) (props : list (jsstring * json))
    : completion json :=
  match c with
  | JNull => Thrown TypeError
  | JObj own_props =>
      if bool_decide (k = lit "__proto__") && negb (has_own k own_props)
      then Normal c
      else Normal (JObj (define k (JObj props) own_props))
  | JArr items =>
      match array_index k with
      | Some n =>
          let i := N.to_nat n in
          if (i <? length items)%nat then Normal (JArr (<[i := JObj props]> items))
          else Normal (JArr (items ++ replicate (i - length items) JNull ++ [JObj props]))
      | None =>
          if bool_decide (k = lit "length") then Thrown RangeError else Normal c
      end
  | JStr _ | JNum _ | JBool _ => Normal c
  end.

(** ** [String.prototype.trim] *)

(** White space and line terminators, the code units [trim] removes: TAB to
    CR, SP, NBSP, the other space separators, LS, PS and ZWNBSP. *)
Definition is_white_space (c : N) : bool :=
  ((9 <=? c) && (c <=? 13)) || (c =? 32) || (c =? 160) || (c =? 5760)
  || ((8192 <=? c) && (c <=? 8202)) || (c =? 8232) || (c =? 8233) || (c =? 8239)
  || (c =? 8287) || (c =? 12288) || (c =? 65279).

Fixpoint trim_start (s : jsstring) : jsstring :=
  match s with
  | c :: r => if is_white_space c then trim_start r else s
  | [] => []
  end.

Definition trim_end (s : jsstring) : jsstring := reverse (trim_start (reverse s)).

Definition trim (s : jsstring) : jsstring := trim_end (trim_start s).

(** Nothing but white space. *)
Definition blank (s : jsstring) : bool := forallb is_white_space s.

(** A host for running examples: the property names of [Object.prototype],
    inherited by every value, and numbers written as they were read. *)
Definition object_prototype_names : list jsstring :=
  map lit ["constructor"; "hasOwnProperty"; "isPrototypeOf"; "propertyIsEnumerable";
           "toLocaleString"; "toString"; "valueOf"; "__proto__";
           "__defineGetter__"; "__defineSetter__"; "__lookupGetter__";
           "__lookupSetter__"]%string.

Definition example_host : Host :=
  {| inherits := λ _ k, bool_decide (k ∈ object_prototype_names);
     num_to_string := λ l, l |}.

End JS.

(** * Session gate *)

Module Auth.
Import JS.

(** [localStorage]: an item is a string; [getItem] of a key that is not
    there gives [null], here [None]. *)
Abbreviation Storage := (gmap string jsstring) (only parsing).

(** [a || b] for a string or null [a] *)
Definition or_else (a : option jsstring) (b : jsstring) : jsstring :=
  match a with
  | Some (c :: s) => c :: s
  | Some [] | None => b
  end.

(** [JSON.parse(localStorage.getItem('users')||'{}')], lines 2 and 7. *)
Definition load_users (st : Storage) : completion json :=
  JSON_parse (or_else (st !! "users"%string) (lit "{}")).

(** [{ email, password }], line 3. *)
Definition record (email password : jsstring) : list (jsstring * json) :=
  [(lit "email", JStr email); (lit "password", JStr password)].

Section WithHost.
Context `{Host}.

(** [function saveUser(email, password)], lines 1-5. *)
Definition saveUser (email password : jsstring) (st : Storage) : completion Storage :=
  users ← load_users st;
  users ← js_set_object users email (record email password);
  mret (<["users"%string := JSON_stringify users]> st).

(** [function checkUser(email, password)], lines 6-10. *)
Definition checkUser (email password : jsstring) (st : Storage) : completion bool :=
  users ← load_users st;
  u ← js_get (VJson users) email;
  if truthy u
  then p ← js_get u (lit "password"); mret (strict_eq_string p password)
  else mret false.

(** A run of signups, oldest first. *)
Fixpoint saveUsers (regs : list (jsstring * jsstring)) (st : Storage)
    : completion Storage :=
  match regs with
  | [] => mret st
  | (email, password) :: regs => st' ← saveUser email password st; saveUsers regs st'
  end.

(** The mappings [saveUser] writes: credential records under names in
    order; and the storage that holds such a mapping, or none yet. *)
Definition credentials (m : list (jsstring * json)) : Prop :=
  js_ordered m.*1 ∧ Forall (λ p, ∃ e pw, p.2 = JObj (record e pw)) m.

Definition stored (st : Storage) (m : list (jsstring * json)) : Prop :=
  credentials m ∧
  (st !! "users"%string = Some (JSON_stringify (JObj m)) ∨
   st !! "users"%string = None ∧ m = []).

End WithHost.

(** The password a mapping holds for an email. *)
Definition password_of (m : list (jsstring * json)) (email : jsstring) : option jsstring :=
  match own email m with
  | Some (JObj r) =>
      match own (lit "password") r with
      | Some (JStr p) => Some p
      | _ => None
      end
  | _ => None
  end.

(** The password an email was last registered with in a run of signups. *)
Fixpoint last_password (regs : list (jsstring * jsstring)) (email : jsstring)
    : option jsstring :=
  match regs with
  | [] => None
  | (e, p) :: regs =>
      match last_password regs email with
      | Some p' => Some p'
      | None => if bool_decide (e = email) then Some p else None
      end
  end.

(** [function setAuthed(email)], lines 11-13. *)
Definition setAuthed (email : jsstring) (st : Storage) : Storage :=
  <["auth_user"%string := email]> st.

(** [function requireAuth()], lines 14-18: the page it sends the browser to,
    if any. *)
Definition requireAuth (st : Storage) : option jsstring :=
  match st !! "auth_user"%string with
  | Some (_ :: _) => None
  | Some [] | None => Some (lit "login.html")
  end.

(** The click handler of [logoutBtn], lines 243-246. *)
Definition logout (st : Storage) : Storage * jsstring :=
  (delete "auth_user"%string st, lit "login.html").

(** *** The forms *)

(** What a handler of the session pages leaves behind: the storage, the page
    it sends the browser to, if any, and what it alerted. *)
Record Effect := mkEffect {
  storage : Storage;
  location_href : option jsstring;
  alerted : list jsstring
}.

(** What the user does on the session pages. *)
Inductive Action :=
| Signup (s_email s_password : jsstring)
| Login (email_value password : jsstring)
| Logout.

Section Forms.
Context `{Host}.

(** The [submit] handler of [signupForm], lines 23-30, for the values of the
    two fields; [e.preventDefault()] keeps the browser from submitting the
    form itself. *)
Definition signup_submit (s_email s_password : jsstring) (st : Storage)
    : completion Effect :=
  let email := trim s_email in
  st' ← saveUser email s_password st;
  mret (mkEffect (setAuthed email st') (Some (lit "index.html")) []).

(** The [submit] handler of [loginForm], lines 36-46. *)
Definition login_submit (email_value password : jsstring) (st : Storage)
    : completion Effect :=
  let email := trim email_value in
  ok ← checkUser email password st;
  if ok : bool
  then mret (mkEffect (setAuthed email st) (Some (lit "index.html")) [])
  else mret (mkEffect st None [lit "Invalid credentials"]).

(** The storage an action leaves.  A handler that throws has written
    nothing: in both handlers every call that can throw comes before the
    first [setItem]. *)
Definition act (a : Action) (st : Storage) : Storage :=
  match a with
  | Signup e p =>
      match signup_submit e p st with Normal eff => storage eff | Thrown _ => st end
  | Login e p =>
      match login_submit e p st with Normal eff => storage eff | Thrown _ => st end
  | Logout => (logout st).1
  end.

Definition session (acts : list Action) (st : Storage) : Storage :=
  fold_left (λ st a, act a st) acts st.

End Forms.

(** *** Scenarios *)

(** The storage after one signup in a fresh browser. *)
Definition one_user : Storage :=
  {["users"%string := json_text "{'a@x.com':{'email':'a@x.com','password':'pw1'}}"]}.

End Auth.

(** * Live detection client, streaming path *)

Module Stream.

(** [WebSocket.readyState]. *)
Inductive ReadyState := CONNECTING | OPEN | CLOSING | CLOSED.

Global Instance ReadyState_eq_dec : EqDecision ReadyState.
Proof. solve_decision. Defined.

Global Instance byte_eq_dec : EqDecision Byte.byte := Byte.byte_eq_dec.

(** What [ws.send] is given: a string or an [ArrayBuffer]. *)
Inductive Msg :=
| Text (s : jsstring)
| Binary (b : list Byte.byte).

Global Instance Msg_eq_dec : EqDecision Msg.
Proof. solve_decision. Defined.

(** A call of [send] that returned: the socket it was made on, that socket's
    [readyState] at the call, and the argument.  The user agent transmits the
    data only when the state is [OPEN]; on a [CLOSING] or [CLOSED] socket the
    call returns and the data is dropped. *)
Record SendCall := mkCall {
  sc_sock : nat;
  sc_state : ReadyState;
  sc_msg : Msg
}.

Global Instance SendCall_eq_dec : EqDecision SendCall.
Proof. solve_decision. Defined.

(** The module-level variables of the script and the part of the browser they
    talk to. *)
Record State := mkState {
  now : N;   (* clock, in milliseconds *)
  socks : list ReadyState;   (* every WebSocket constructed so far *)
  ws : option nat;   (* [let ws]: its index in [socks] *)
  timers : list N;   (* due times of the pending setTimeout(connectWS, 1000) *)
  sending : bool;   (* [let sending = false] *)
  color : jsstring;   (* colorSel.value *)
  conf : jsstring;   (* confRange.value *)
  confVal : jsstring;   (* confVal.textContent *)
  video_readyState : N;   (* video.readyState *)
  media_pending : nat;   (* getUserMedia promises not yet settled *)
  raf : nat;   (* captureLoop callbacks queued by requestAnimationFrame *)
  encoding : nat;   (* canvas.toBlob callbacks not yet run *)
  reading : list (list Byte.byte);   (* blob.arrayBuffer() promises not yet resolved *)
  calls : list SendCall;   (* calls of ws.send that returned, oldest first *)
  shown : option (list Byte.byte);   (* the frame the output image shows *)
  console : list jsstring;   (* what console.error was called with *)
  uncaught : nat   (* exceptions that escaped a handler *)
}.

(** The page once the script has loaded: no socket yet, the flag down; the
    three control values are those of the page's markup. *)
Definition init (color0 conf0 confVal0 : jsstring) : State :=
  {| now := 0; socks := []; ws := None; timers := []; sending := false;
     color := color0; conf := conf0; confVal := confVal0; video_readyState := 0;
     media_pending := 0; raf := 0; encoding := 0; reading := [];
     calls := []; shown := None; console := []; uncaught := 0 |}.

(** Field updates. *)
Definition set_now v (s : State) :=
  mkState v (socks s) (ws s) (timers s) (sending s) (color s) (conf s) (confVal s)
    (video_readyState s) (media_pending s) (raf s) (encoding s) (reading s) (calls s)
    (shown s) (console s) (uncaught s).
Definition set_socks v (s : State) :=
  mkState (now s) v (ws s) (timers s) (sending s) (color s) (conf s) (confVal s)
    (video_readyState s) (media_pending s) (raf s) (encoding s) (reading s) (calls s)
    (shown s) (console s) (uncaught s).
Definition set_ws v (s : State) :=
  mkState (now s) (socks s) v (timers s) (sending s) (color s) (conf s) (confVal s)
    (video_readyState s) (media_pending s) (raf s) (encoding s) (reading s) (calls s)
    (shown s) (console s) (uncaught s).
Definition set_timers v (s : State) :=
  mkState (now s) (socks s) (ws s) v (sending s) (color s) (conf s) (confVal s)
    (video_readyState s) (media_pending s) (raf s) (encoding s) (reading s) (calls s)
    (shown s) (console s) (uncaught s).
Definition set_sending v (s : State) :=
  mkState (now s) (socks s) (ws s) (timers s) v (color s) (conf s) (confVal s)
    (video_readyState s) (media_pending s) (raf s) (encoding s) (reading s) (calls s)
    (shown s) (console s) (uncaught s).
Definition set_color v (s : State) :=
  mkState (now s) (socks s) (ws s) (timers s) (sending s) v (conf s) (confVal s)
    (video_readyState s) (media_pending s) (raf s) (encoding s) (reading s) (calls s)
    (shown s) (console s) (uncaught s).
Definition set_conf v (s : State) :=
  mkState (now s) (socks s) (ws s) (timers s) (sending s) (color s) v (confVal s)
    (video_readyState s) (media_pending s) (raf s) (encoding s) (reading s) (calls s)
    (shown s) (console s) (uncaught s).
Definition set_confVal v (s : State) :=
  mkState (now s) (socks s) (ws s) (timers s) (sending s) (color s) (conf s) v
    (video_readyState s) (media_pending s) (raf s) (encoding s) (reading s) (calls s)
    (shown s) (console s) (uncaught s).
Definition set_video_readyState v (s : State) :=
  mkState (now s) (socks s) (ws s) (timers s) (sending s) (color s) (conf s) (confVal s) v
    (media_pending s) (raf s) (encoding s) (reading s) (calls s) (shown s) (console s)
    (uncaught s).
Definition set_media_pending v (s : State) :=
  mkState (now s) (socks s) (ws s) (timers s) (sending s) (color s) (conf s) (confVal s)
    (video_readyState s) v (raf s) (encoding s) (reading s) (calls s) (shown s) (console s)
    (uncaught s).
Definition set_raf v (s : State) :=
  mkState (now s) (socks s) (ws s) (timers s) (sending s) (color s) (conf s) (confVal s)
    (video_readyState s) (media_pending s) v (encoding s) (reading s) (calls s) (shown s)
    (console s) (uncaught s).
Definition set_encoding v (s : State) :=
  mkState (now s) (socks s) (ws s) (timers s) (sending s) (color s) (conf s) (confVal s)
    (video_readyState s) (media_pending s) (raf s) v (reading s) (calls s) (shown s)
    (console s) (uncaught s).
Definition set_reading v (s : State) :=
  mkState (now s) (socks s) (ws s) (timers s) (sending s) (color s) (conf s) (confVal s)
    (video_readyState s) (media_pending s) (raf s) (encoding s) v (calls s) (shown s)
    (console s) (uncaught s).
Definition set_calls v (s : State) :=
  mkState (now s) (socks s) (ws s) (timers s) (sending s) (color s) (conf s) (confVal s)
    (video_readyState s) (media_pending s) (raf s) (encoding s) (reading s) v (shown s)
    (console s) (uncaught s).
Definition set_shown v (s : State) :=
  mkState (now s) (socks s) (ws s) (timers s) (sending s) (color s) (conf s) (confVal s)
    (video_readyState s) (media_pending s) (raf s) (encoding s) (reading s) (calls s) v
    (console s) (uncaught s).
Definition set_console v (s : State) :=
  mkState (now s) (socks s) (ws s) (timers s) (sending s) (color s) (conf s) (confVal s)
    (video_readyState s) (media_pending s) (raf s) (encoding s) (reading s) (calls s)
    (shown s) v (uncaught s).
Definition set_uncaught v (s : State) :=
  mkState (now s) (socks s) (ws s) (timers s) (sending s) (color s) (conf s) (confVal s)
    (video_readyState s) (media_pending s) (raf s) (encoding s) (reading s) (calls s)
    (shown s) (console s) v.

(** *** Handlers: state and exceptions

    A handler either returns or throws; what it wrote before throwing stays
    written. *)
Inductive outcome (A : Type) :=
| Ret (a : A) (s : State)
| Throw (s : State).
Arguments Ret {A} a s.
Arguments Throw {A} s.

Definition M (A : Type) : Type := State → outcome A.

Global Instance M_ret : MRet M := λ A a s, Ret a s.
Global Instance M_bind : MBind M := λ A B k m s,
  match m s with
  | Ret a s' => k a s'
  | Throw s' => Throw s'
  end.

Definition throw {A} : M A := λ s, Throw s.
Definition gets {A} (f : State → A) : M A := λ s, Ret (f s) s.
Definition modify (f : State → State) : M unit := λ s, Ret tt (f s).
Definition when (b : bool) (m : M unit) : M unit := if b then m else mret tt.

(** The state a task leaves behind; an exception that escapes it is reported
    and otherwise lost. *)
Definition run_task (m : M unit) (s : State) : State :=
  match m s with
  | Ret _ s' => s'
  | Throw s' => set_uncaught (S (uncaught s')) s'
  end.

(** [ws && ws.readyState === WebSocket.OPEN] *)
Definition ws_open (s : State) : bool :=
  match ws s with
  | Some i => bool_decide (socks s !! i = Some OPEN)
  | None => false
  end.

(** [ws.send(m)].  On a socket that is still [CONNECTING] the call throws
    [InvalidStateError]; in every other state it returns. *)
Definition ws_send (m : Msg) : M unit := λ s,
  match ws s with
  | Some i =>
      match socks s !! i with
      | Some CONNECTING | None => Throw s
      | Some st => Ret tt (set_calls (calls s ++ [mkCall i st m]) s)
      end
  | None => Throw s
  end.

(** [setTimeout(connectWS, 1000)] *)
Definition setTimeout_connectWS : M unit :=
  modify (λ s, set_timers (timers s ++ [now s + 1000]) s).

(** [function connectWS()], lines 78-96: a new socket, bound to [ws]; its
    three handlers are [onopen], [onmessage] and [onclose] below. *)
Definition connectWS : M unit :=
  modify (λ s, set_ws (Some (length (socks s))) (set_socks (socks s ++ [CONNECTING]) s)).

(** [ws.onopen], lines 81-84.  The handler names the variable [ws], not the
    socket whose handshake completed. *)
Definition onopen : M unit :=
  c ← gets color;
  ws_send (Text (lit "color=" ++ c));;
  v ← gets conf;
  ws_send (Text (lit "conf=" ++ v)).

(** [ws.onmessage], lines 85-94: a string is logged if it starts with
    [ERR:] and otherwise ignored; anything else is shown as the new frame. *)
Definition onmessage (data : Msg) : M unit :=
  match data with
  | Text t =>
      when (bool_decide (is_Some (JS.strip (lit "ERR:") t)))
        (modify (λ s, set_console (console s ++ [t]) s))
  | Binary b => modify (set_shown (Some b))
  end.

(** [ws.onclose], line 95. *)
Definition onclose : M unit := setTimeout_connectWS.

(** [async function startCamera()], lines 98-106, up to its [await]. *)
Definition startCamera : M unit :=
  modify (λ s, set_media_pending (S (media_pending s)) s).

(** The rest of [startCamera], once [getUserMedia] has resolved. *)
Definition startCamera_resume : M unit :=
  modify (λ s, set_raf (S (raf s)) s).

(** [async function captureLoop()], lines 108-135. *)
Definition captureLoop : M unit :=
  s ← gets id;
  when (negb (sending s) && ws_open s && (2 <=? video_readyState s))
    (modify (set_sending true);;
     modify (λ s, set_encoding (S (encoding s)) s));;
  modify (λ s, set_raf (S (raf s)) s).

(** The callback given to [canvas.toBlob], lines 123-129, up to its [await]:
    [blob] is [None] when the canvas could not be encoded. *)
Definition toBlob_callback (blob : option (list Byte.byte)) : M unit :=
  s ← gets id;
  match blob with
  | Some b =>
      if ws_open s
      then modify (λ s, set_reading (reading s ++ [b]) s)
      else modify (set_sending false)
  | None => modify (set_sending false)
  end.

(** The rest of the callback, once [blob.arrayBuffer()] has resolved. *)
Definition toBlob_resume (buf : list Byte.byte) : M unit :=
  ws_send (Binary buf);;
  modify (set_sending false).

(** The click handler of [startBtn], lines 137-140. *)
Definition startBtn_click : M unit :=
  s ← gets id;
  when (negb (ws_open s)) connectWS;;
  startCamera.

(** The [change] handler of [colorSel], lines 229-232. *)
Definition colorSel_change : M unit :=
  s ← gets id;
  when (ws_open s) (ws_send (Text (lit "color=" ++ color s))).

(** The [input] handler of [confRange], lines 234-238. *)
Definition confRange_input : M unit :=
  modify (λ s, set_confVal (conf s) s);;
  s ← gets id;
  when (ws_open s) (ws_send (Text (lit "conf=" ++ conf s))).

(** *** The event loop *)

Inductive Event :=
| EElapse (ms : N)                       (* time passes *)
| EClick                                 (* the user clicks startBtn *)
| EMediaGranted                          (* a getUserMedia promise resolves *)
| EMediaDenied                           (* a getUserMedia promise rejects *)
| EVideo (rs : N)                        (* video.readyState changes *)
| ETick                                  (* an animation frame: one queued captureLoop runs *)
| EEncoded (blob : option (list Byte.byte)) (* a toBlob callback runs *)
| EBufferReady                           (* a blob.arrayBuffer() promise resolves *)
| EOpen (i : nat)                        (* socket i completes its handshake *)
| EClosing (i : nat)                     (* socket i starts its closing handshake *)
| EClose (i : nat)                       (* socket i is closed: failed, dropped or closed by the peer *)
| EMessage (i : nat) (data : Msg)        (* socket i receives a message *)
| ETimer                                 (* the oldest pending timer fires *)
| EColor (v : jsstring)                  (* the user picks a colour *)
| EConf (v : jsstring).                  (* the user moves the confidence slider *)

(** One task.  An event that cannot happen in the state (a handshake on a
    socket that is not connecting, a timer that is not due, a callback that
    was never queued) leaves it as it is. *)
Definition step (e : Event) (s : State) : State :=
  match e with
  | EElapse ms => set_now (now s + ms) s
  | EClick => run_task startBtn_click s
  | EMediaGranted =>
      match media_pending s with
      | S n => run_task startCamera_resume (set_media_pending n s)
      | O => s
      end
  | EMediaDenied =>
      match media_pending s with
      | S n => set_uncaught (S (uncaught s)) (set_media_pending n s)
      | O => s
      end
  | EVideo rs => set_video_readyState rs s
  | ETick =>
      match raf s with
      | S n => run_task captureLoop (set_raf n s)
      | O => s
      end
  | EEncoded blob =>
      match encoding s with
      | S n => run_task (toBlob_callback blob) (set_encoding n s)
      | O => s
      end
  | EBufferReady =>
      match reading s with
      | buf :: rest => run_task (toBlob_resume buf) (set_reading rest s)
      | [] => s
      end
  | EOpen i =>
      match socks s !! i with
      | Some CONNECTING => run_task onopen (set_socks (<[i := OPEN]> (socks s)) s)
      | _ => s
      end
  | EClosing i =>
      match socks s !! i with
      | Some CONNECTING | Some OPEN => set_socks (<[i := CLOSING]> (socks s)) s
      | _ => s
      end
  | EClose i =>
      match socks s !! i with
      | Some CLOSED | None => s
      | Some _ => run_task onclose (set_socks (<[i := CLOSED]> (socks s)) s)
      end
  | EMessage i data =>
      match socks s !! i with
      | Some OPEN | Some CLOSING => run_task (onmessage data) s
      | _ => s
      end
  | ETimer =>
      match timers s with
      | due :: rest =>
          if due <=? now s then run_task connectWS (set_timers rest s) else s
      | [] => s
      end
  | EColor v => run_task colorSel_change (set_color v s)
  | EConf v => run_task confRange_input (set_conf v s)
  end.

(** A run of the event loop. *)
Definition run (evs : list Event) (s : State) : State :=
  fold_left (λ s e, step e s) evs s.

(** Operations of the frame loop under way: frames being encoded and
    encoded frames waiting to be sent. *)
Definition inflight (s : State) : nat := (encoding s + length (reading s))%nat.

(** Sockets that are not closed. *)
Definition live (s : State) : list nat :=
  filter (λ i, socks s !! i ≠ Some CLOSED) (seq 0 (length (socks s))).

(** What was transmitted on socket [i], in order. *)
Definition wire (i : nat) (s : State) : list Msg :=
  sc_msg <$> filter (λ c, sc_sock c = i ∧ sc_state c = OPEN) (calls s).

(** The binary payloads among a list of send calls. *)
Definition frames (cs : list SendCall) : list (list Byte.byte) :=
  omap (λ c, match sc_msg c with Binary b => Some b | Text _ => None end) cs.

(** The flag covers every operation under way. *)
Definition flag_covers (s : State) : Prop :=
  (inflight s ≤ (if sending s then 1 else 0))%nat.

(** The flag is up and nothing is under way that could take it down. *)
Definition stuck (s : State) : Prop :=
  sending s = true ∧ encoding s = O ∧ reading s = [].

(** The payload, if any, that a task lets through the guard of line 124. *)
Definition accepted_by (e : Event) (s : State) : list (list Byte.byte) :=
  match e, encoding s with
  | EEncoded (Some b), S _ => if ws_open s then [b] else []
  | _, _ => []
  end.

(** The payloads let through the guard in the course of a run. *)
Fixpoint accepted (evs : list Event) (s : State) : list (list Byte.byte) :=
  match evs with
  | [] => []
  | e :: evs => accepted_by e s ++ accepted evs (step e s)
  end.

(** [ws] has moved past socket [i]. *)
Definition orphan (i : nat) (s : State) : Prop :=
  ∃ j, ws s = Some j ∧ (i < j < length (socks s))%nat.

(** Connections live or scheduled: the sockets that are not closed and the
    pending reconnect timers. *)
Definition connections (s : State) : nat :=
  (length (filter (λ st, st ≠ CLOSED) (socks s)) + length (timers s))%nat.

(** A click that comes only when the socket is open or when no connection is
    live or scheduled. *)
Definition patient_click (e : Event) (s : State) : Prop :=
  e = EClick → ws_open s = true ∨ connections s = 0%nat.

(** Every click of a run is of that kind. *)
Fixpoint patient (evs : list Event) (s : State) : Prop :=
  match evs with
  | [] => True
  | e :: evs => patient_click e s ∧ patient evs (step e s)
  end.

(** What was transmitted on socket [i] among the calls [cl]. *)
Definition sent_on (i : nat) (cl : list SendCall) : list Msg :=
  sc_msg <$> filter (λ c, sc_sock c = i ∧ sc_state c = OPEN) cl.

(** The first two messages are the two settings. *)
Definition settings_first (msgs : list Msg) : Prop :=
  msgs = [] ∨
  ∃ c v rest, msgs = Text (lit "color=" ++ c) :: Text (lit "conf=" ++ v) :: rest.

(** The sockets, [ws] and the calls made so far fit together: on every
    socket the settings came first; [ws] names a socket; if that socket is
    open its settings have been sent; nothing was transmitted on a socket
    that has not opened yet. *)
Definition settled (sk : list ReadyState) (w : option nat) (cl : list SendCall) : Prop :=
  (∀ i, settings_first (sent_on i cl)) ∧
  (∀ j, w = Some j → (j < length sk)%nat) ∧
  (∀ j, w = Some j → sk !! j = Some OPEN → sent_on j cl ≠ []) ∧
  (∀ i, sk !! i = Some CONNECTING ∨ sk !! i = None → sent_on i cl = []).

Definition settled_state (s : State) : Prop := settled (socks s) (ws s) (calls s).

(** The clicks on [startBtn] among the events of a run. *)
Definition clicks (evs : list Event) : nat :=
  length (List.filter (λ e, match e with EClick => true | _ => false end) evs).

(** No frame is being encoded or read, and none was ever passed to [send]. *)
Definition quiet (s : State) : Prop :=
  encoding s = O ∧ reading s = [] ∧ frames (calls s) = [].

(** *** Scenarios *)

(** Some encoded frame. *)
Definition frame0 : list Byte.byte := [Byte.xff; Byte.xd8; Byte.xff; Byte.xd9].

(** The socket drops while an encoded frame is being read into a buffer, and
    the user clicks again before the read is over. *)
Definition rebound_by_click : list Event :=
  [EClick; EOpen 0; EMediaGranted; EVideo 4; ETick; EEncoded (Some frame0);
   EClose 0; EClick; EBufferReady].

(** The first connection fails and the user clicks again; the second
    connection opens and frames flow; the timer of the first connection
    fires while an encoded frame is being read into a buffer. *)
Definition rebound_by_timer : list Event :=
  [EClick; EClose 0; EClick; EOpen 1; EMediaGranted; EVideo 4; EElapse 1000;
   ETick; EEncoded (Some frame0); ETimer; EBufferReady].

(** The connection fails, the user clicks again, and a second later the timer
    of the failed connection fires. *)
Definition click_then_timer : list Event :=
  [EClick; EClose 0; EClick; EElapse 1000; ETimer].

(** Two clicks before the first handshake completes. *)
Definition double_click : list Event := [EClick; EClick; EOpen 0].

(** The socket is open, the camera runs and the frame loop has started to
    encode its first frame. *)
Definition frame_encoding : list Event :=
  [EClick; EOpen 0; EMediaGranted; EVideo 4; ETick].

(** The socket is closed while an encoded frame is being read into a buffer. *)
Definition closed_during_read : list Event :=
  [EClick; EOpen 0; EMediaGranted; EVideo 4; ETick; EEncoded (Some frame0);
   EClose 0; EBufferReady].

(** The socket is closed while an encoded frame is being read into a buffer,
    and before the read is over the user has clicked again and the new socket
    has completed its handshake. *)
Definition sent_on_next_socket : list Event :=
  [EClick; EOpen 0; EMediaGranted; EVideo 4; ETick; EEncoded (Some frame0);
   EClose 0; EClick; EOpen 1; EBufferReady].

End Stream.

(** * Live detection client, batch paths *)

Module Batch.
Import JS.

(** What the flows rely on the host for when they show a result:
    [ToString], [JSON.stringify(v, null, 2)] (which gives [undefined], here
    [None], for [undefined]) and the message of a native error. *)
Class Display := {
  to_string : jsval → jsstring;
  stringify_pretty : jsval → option jsstring;
  error_message : js_error → jsstring
}.

(** A button: [disabled] and [textContent]. *)
Record Control := mkControl { disabled : bool; textContent : jsstring }.

(** An image or a video: [src], and whether it has the class [hidden]. *)
Record Media := mkMedia { src : jsstring; hidden : bool }.

(** A block of text: [textContent], and whether it has the class [hidden]. *)
Record Pre := mkPre { pre_text : jsstring; pre_hidden : bool }.

(** A download link: [href], [download] and [style.display]. *)
Record Link := mkLink { href : jsstring; download : jsstring; display : jsstring }.

(** A chosen file; the flows read its name and send it whole. *)
Record File := mkFile { file_name : jsstring }.

(** A call of [fetch]: a POST of a form with the file under [file_field] and
    the two settings. *)
Record Request := mkRequest {
  req_url : jsstring;
  req_file_field : jsstring;
  req_file : File;
  req_color : jsstring;
  req_conf : jsstring
}.

(** The elements the two flows read and write. *)
Record Dom := mkDom {
  imageInput : option File;   (* imageInput.files?.[0] *)
  videoFile : option File;   (* videoFile.files?.[0] *)
  colorSel : jsstring;   (* colorSel.value *)
  confRange : jsstring;   (* confRange.value *)
  submitImage : Control;
  submitVideo : Control;
  output : Media;   (* the result image *)
  outputVideo : Media;   (* the result video *)
  downloadImage : Link;
  downloadLink : Link;
  statsEl : Pre;
  statsTitle_hidden : bool;   (* statsTitle has the class hidden *)
  plotImg : Media;
  alerts : list jsstring;   (* what alert was called with, oldest first *)
  requests : list Request   (* the calls of fetch, oldest first *)
}.

(** Field updates. *)
Definition set_submitImage v (d : Dom) :=
  mkDom (imageInput d) (videoFile d) (colorSel d) (confRange d) v (submitVideo d) (output d)
    (outputVideo d) (downloadImage d) (downloadLink d) (statsEl d) (statsTitle_hidden d)
    (plotImg d) (alerts d) (requests d).
Definition set_submitVideo v (d : Dom) :=
  mkDom (imageInput d) (videoFile d) (colorSel d) (confRange d) (submitImage d) v (output d)
    (outputVideo d) (downloadImage d) (downloadLink d) (statsEl d) (statsTitle_hidden d)
    (plotImg d) (alerts d) (requests d).
Definition set_output v (d : Dom) :=
  mkDom (imageInput d) (videoFile d) (colorSel d) (confRange d) (submitImage d)
    (submitVideo d) v (outputVideo d) (downloadImage d) (downloadLink d) (statsEl d)
    (statsTitle_hidden d) (plotImg d) (alerts d) (requests d).
Definition set_outputVideo v (d : Dom) :=
  mkDom (imageInput d) (videoFile d) (colorSel d) (confRange d) (submitImage d)
    (submitVideo d) (output d) v (downloadImage d) (downloadLink d) (statsEl d)
    (statsTitle_hidden d) (plotImg d) (alerts d) (requests d).
Definition set_downloadImage v (d : Dom) :=
  mkDom (imageInput d) (videoFile d) (colorSel d) (confRange d) (submitImage d)
    (submitVideo d) (output d) (outputVideo d) v (downloadLink d) (statsEl d)
    (statsTitle_hidden d) (plotImg d) (alerts d) (requests d).
Definition set_downloadLink v (d : Dom) :=
  mkDom (imageInput d) (videoFile d) (colorSel d) (confRange d) (submitImage d)
    (submitVideo d) (output d) (outputVideo d) (downloadImage d) v (statsEl d)
    (statsTitle_hidden d) (plotImg d) (alerts d) (requests d).
Definition set_statsEl v (d : Dom) :=
  mkDom (imageInput d) (videoFile d) (colorSel d) (confRange d) (submitImage d)
    (submitVideo d) (output d) (outputVideo d) (downloadImage d) (downloadLink d) v
    (statsTitle_hidden d) (plotImg d) (alerts d) (requests d).
Definition set_statsTitle_hidden v (d : Dom) :=
  mkDom (imageInput d) (videoFile d) (colorSel d) (confRange d) (submitImage d)
    (submitVideo d) (output d) (outputVideo d) (downloadImage d) (downloadLink d)
    (statsEl d) v (plotImg d) (alerts d) (requests d).
Definition set_plotImg v (d : Dom) :=
  mkDom (imageInput d) (videoFile d) (colorSel d) (confRange d) (submitImage d)
    (submitVideo d) (output d) (outputVideo d) (downloadImage d) (downloadLink d)
    (statsEl d) (statsTitle_hidden d) v (alerts d) (requests d).
Definition set_alerts v (d : Dom) :=
  mkDom (imageInput d) (videoFile d) (colorSel d) (confRange d) (submitImage d)
    (submitVideo d) (output d) (outputVideo d) (downloadImage d) (downloadLink d)
    (statsEl d) (statsTitle_hidden d) (plotImg d) v (requests d).
Definition set_requests v (d : Dom) :=
  mkDom (imageInput d) (videoFile d) (colorSel d) (confRange d) (submitImage d)
    (submitVideo d) (output d) (outputVideo d) (downloadImage d) (downloadLink d)
    (statsEl d) (statsTitle_hidden d) (plotImg d) (alerts d) v.

(** How a request goes.  [fetch] rejects, or resolves with a response whose
    status is 2xx ([ok]) or not; reading the body then fails or gives its
    content: for the image flow the object URL minted for the blob, for the
    video flow the text that [res.json()] parses. *)
Inductive body :=
| BodyError (message : jsstring)
| Body (content : jsstring).

Inductive response :=
| NetworkError (message : jsstring)
| Response (ok : bool) (b : body).

(** *** Handlers: state and exceptions; an exception carries its message. *)
Inductive outcome (A : Type) :=
| Ret (a : A) (d : Dom)
| Throw (message : jsstring) (d : Dom).
Arguments Ret {A} a d.
Arguments Throw {A} message d.

Definition M (A : Type) : Type := Dom → outcome A.

Global Instance M_ret : MRet M := λ A a d, Ret a d.
Global Instance M_bind : MBind M := λ A B k m d,
  match m d with
  | Ret a d' => k a d'
  | Throw e d' => Throw e d'
  end.

Definition throw {A} (message : jsstring) : M A := λ d, Throw message d.
Definition gets {A} (f : Dom → A) : M A := λ d, Ret (f d) d.
Definition modify (f : Dom → Dom) : M unit := λ d, Ret tt (f d).
Definition when (b : bool) (m : M unit) : M unit := if b then m else mret tt.

(** [try { body } catch (err) { handler(err.message) } finally { final }] *)
Definition try_catch_finally (body : M unit) (handler : jsstring → M unit)
    (final : M unit) : M unit := λ d,
  match body d with
  | Ret _ d' => final d'
  | Throw e d' =>
      match handler e d' with
      | Ret _ d'' => final d''
      | Throw e' d'' =>
          match final d'' with
          | Ret _ d3 => Throw e' d3
          | Throw e3 d3 => Throw e3 d3
          end
      end
  end.

(** The page a handler leaves behind. *)
Definition run_task (m : M unit) (d : Dom) : Dom :=
  match m d with
  | Ret _ d' => d'
  | Throw _ d' => d'
  end.

Definition alert (message : jsstring) : M unit :=
  modify (λ d, set_alerts (alerts d ++ [message]) d).

(** [const API = (path) => `http://localhost:8000${path}`], line 76, once
    [path] is a string. *)
Definition API (path : jsstring) : jsstring := lit "http://localhost:8000" ++ path.

(** [await fetch(url, { method: "POST", body: form })] followed by
    [if (!res.ok) throw new Error("Server error")]. *)
Definition fetch_ok (req : Request) (r : response) : M body :=
  modify (λ d, set_requests (requests d ++ [req]) d);;
  match r with
  | NetworkError message => throw message
  | Response ok b => if ok then mret b else throw (lit "Server error")
  end.

(** [await res.blob()], [await res.json()]: the body, once read. *)
Definition read_body (b : body) : M jsstring :=
  match b with
  | BodyError message => throw message
  | Body content => mret content
  end.

(** [name.replace(/\.[^.]+$/, '')]: the name without its last extension, a
    dot followed to the end by one character or more that are not dots. *)
Fixpoint strip_extension (name : jsstring) : jsstring :=
  match name with
  | [] => []
  | c :: r =>
      if (c =? 46) && negb (bool_decide (r = [])) && forallb (λ x, negb (x =? 46)) r
      then [] else c :: strip_extension r
  end.

(** The label of a control while its request is pending. *)
Definition processing : jsstring := lit "Processing" ++ [8230].

(** *** The image flow, lines 143-176 *)

(** The [try] block, lines 152-169. *)
Definition submitImage_try (file : File) (r : response) : M unit :=
  d ← gets id;
  b ← fetch_ok (mkRequest (API (lit "/api/process")) (lit "file") file
                  (colorSel d) (confRange d)) r;
  url ← read_body b;
  modify (set_output (mkMedia url false));;
  modify (λ d, set_outputVideo (mkMedia (src (outputVideo d)) true) d);;
  modify (set_downloadImage
            (mkLink url (strip_extension (file_name file) ++ lit "_annotated.jpg")
               (lit "inline-block"))).

(** The handler up to its first [await]: lines 144-150. *)
Definition submitImage_begin : M (option File) :=
  d ← gets id;
  match imageInput d with
  | None => alert (lit "Choose an image first.");; mret None
  | Some file =>
      modify (set_submitImage (mkControl true processing));;
      mret (Some file)
  end.

(** The whole handler, for a request that goes as [r]. *)
Definition submitImage_click (r : response) : M unit :=
  started ← submitImage_begin;
  match started with
  | None => mret tt
  | Some file =>
      try_catch_finally (submitImage_try file r)
        (λ message, alert (lit "Failed: " ++ message))
        (modify (set_submitImage (mkControl false (lit "Submit Image"))))
  end.

(** *** The video flow, lines 179-227 *)

Section WithHost.
Context `{Host} `{Display}.

(** A call into the language from a handler. *)
Definition native {A} (c : completion A) : M A :=
  match c with
  | Normal a => mret a
  | Thrown e => throw (error_message e)
  end.

(** The [try] block, lines 192-220. *)
Definition submitVideo_try (file : File) (r : response) : M unit :=
  d ← gets id;
  b ← fetch_ok (mkRequest (API (lit "/api/process_video2")) (lit "video") file
                  (colorSel d) (confRange d)) r;
  text ← read_body b;
  data ← native (JSON_parse text);
  video_url ← native (js_get (VJson data) (lit "video_url"));
  let videoURL := API (to_string video_url) in
  modify (set_outputVideo (mkMedia videoURL false));;
  modify (λ d, set_output (mkMedia (src (output d)) true) d);;
  filename ← native (js_get (VJson data) (lit "filename"));
  modify (set_downloadLink
            (mkLink videoURL
               (to_string (if truthy filename then filename
                           else VJson (JStr (lit "annotated.mp4"))))
               (lit "inline-block")));;
  stats ← native (js_get (VJson data) (lit "stats"));
  modify (set_statsEl (mkPre (default [] (stringify_pretty stats)) false));;
  modify (set_statsTitle_hidden false);;
  plot_url ← native (js_get (VJson data) (lit "plot_url"));
  modify (set_plotImg (mkMedia (API (to_string plot_url)) false)).

(** The handler up to its first [await]: lines 180-190. *)
Definition submitVideo_begin : M (option File) :=
  d ← gets id;
  match videoFile d with
  | None => alert (lit "Choose a video first.");; mret None
  | Some file =>
      modify (set_submitVideo (mkControl true processing));;
      modify (λ d, set_downloadLink
                     (mkLink (href (downloadLink d)) (download (downloadLink d)) (lit "none")) d);;
      modify (λ d, set_statsEl (mkPre (pre_text (statsEl d)) true) d);;
      modify (set_statsTitle_hidden true);;
      modify (λ d, set_plotImg (mkMedia (src (plotImg d)) true) d);;
      mret (Some file)
  end.

(** The whole handler, for a request that goes as [r]. *)
Definition submitVideo_click (r : response) : M unit :=
  started ← submitVideo_begin;
  match started with
  | None => mret tt
  | Some file =>
      try_catch_finally (submitVideo_try file r)
        (λ message, alert (lit "Failed to process video: " ++ message))
        (modify (set_submitVideo (mkControl false (lit "Submit Video"))))
  end.

End WithHost.

(** *** Scenarios *)

(** A display for running examples: a string is shown as it is, a number as
    it was written, anything else by a fixed text. *)
Definition example_display : Display :=
  {| to_string := λ v,
       match v with
       | VJson (JStr s) => s
       | VJson (JNum l) => l
       | VJson JNull => lit "null"
       | VJson (JBool b) => if b then lit "true" else lit "false"
       | VUndefined => lit "undefined"
       | _ => lit "[object Object]"
       end;
     stringify_pretty := λ v,
       match v with
       | VJson j => Some (JSON_stringify (H := example_host) j)
       | _ => None
       end;
     error_message := λ e,
       match e with
       | SyntaxError => lit "Unexpected end of JSON input"
       | TypeError => lit "Cannot read properties of null"
       | RangeError => lit "Invalid array length"
       end |}.

(** A page with an image chosen and no video, and a page with a video
    chosen and no image; the controls are idle. *)
Definition page_with_image : Dom :=
  {| imageInput := Some (mkFile (lit "cat.png")); videoFile := None;
     colorSel := lit "red"; confRange := lit "0.5";
     submitImage := mkControl false (lit "Submit Image");
     submitVideo := mkControl false (lit "Submit Video");
     output := mkMedia [] true; outputVideo := mkMedia [] true;
     downloadImage := mkLink [] [] (lit "none");
     downloadLink := mkLink [] [] (lit "none");
     statsEl := mkPre [] true; statsTitle_hidden := true;
     plotImg := mkMedia [] true; alerts := []; requests := [] |}.

Definition page_with_video : Dom :=
  {| imageInput := None; videoFile := Some (mkFile (lit "street.mp4"));
     colorSel := lit "red"; confRange := lit "0.5";
     submitImage := mkControl false (lit "Submit Image");
     submitVideo := mkControl false (lit "Submit Video");
     output := mkMedia [] true; outputVideo := mkMedia [] true;
     downloadImage := mkLink [] [] (lit "none");
     downloadLink := mkLink [] [] (lit "none");
     statsEl := mkPre [] true; statsTitle_hidden := true;
     plotImg := mkMedia [] true; alerts := []; requests := [] |}.

End Batch.

(** * Properties of the streaming path *)

Module StreamFacts.
Import Stream.

Local Open Scope nat_scope.

(** Unfold one task down to the fields it reads and writes. *)
Ltac unfold_task :=
  unfold run_task, startBtn_click, startCamera, startCamera_resume, captureLoop,
    toBlob_callback, toBlob_resume, colorSel_change, confRange_input, onopen,
    onmessage, onclose, setTimeout_connectWS, connectWS, ws_send, when, gets, modify,
    mbind, M_bind, mret, M_ret in *.

(** Split on the innermost test first, so that every branch is a state. *)
Ltac case_fields :=
  repeat match goal with
  | |- context [match ?x with _ => _ end] =>
      lazymatch x with
      | context [match _ with _ => _ end] => fail
      | _ => destruct x eqn:?; simpl in *
      end
  end.

Lemma run_app evs1 evs2 s : run (evs1 ++ evs2) s = run evs2 (run evs1 s).
Proof. apply fold_left_app. Qed.

(** ** The in-flight flag *)

Lemma flag_covers_init c v cv : flag_covers (init c v cv).
Proof. unfold flag_covers, inflight; simpl; lia. Qed.

Lemma flag_covers_step e s : flag_covers s → flag_covers (step e s).
Proof.
  unfold flag_covers, inflight.
  destruct s as [nw sk w tm sd co cf cv vr mp rf en rd cl sh cs un]; simpl.
  intros H. destruct sd.
  all: destruct e; simpl; unfold_task; simpl; case_fields;
    simpl in *; subst; simpl in *; rewrite ?length_app in *; simpl in *;
    try lia; try discriminate.
Qed.

Lemma flag_covers_run evs : ∀ s, flag_covers s → flag_covers (run evs s).
Proof.
  induction evs as [|e evs IH]; intros s H; simpl; [done|].
  apply IH, flag_covers_step, H.
Qed.

(** For every run of the event loop, at most one encode-or-send operation is
    under way. *)
Lemma inflight_le_1 c v cv evs : inflight (run evs (init c v cv)) ≤ 1.
Proof.
  pose proof (flag_covers_run evs _ (flag_covers_init c v cv)) as H.
  unfold flag_covers in H. destruct (sending _); lia.
Qed.

(** A tick that finds the flag set starts nothing: it only queues the next
    animation frame, which leaves the state as it was before the tick. *)
Lemma tick_while_sending s n :
  sending s = true → raf s = S n → step ETick s = s.
Proof.
  destruct s as [nw sk w tm sd co cf cv vr mp rf en rd cl sh cs un]; simpl.
  intros -> ->. reflexivity.
Qed.

(** A tick that starts a cycle sets the flag and starts exactly one encoding. *)
Lemma tick_starts_cycle s n :
  sending s = false → ws_open s = true → (2 <= video_readyState s)%N → raf s = S n →
  step ETick s = set_encoding (S (encoding s)) (set_sending true s).
Proof.
  destruct s as [nw sk w tm sd co cf cv vr mp rf en rd cl sh cs un]; simpl.
  intros -> Hopen Hv ->. unfold_task; simpl.
  unfold ws_open in *; simpl in *. rewrite Hopen.
  apply N.leb_le in Hv. rewrite Hv. reflexivity.
Qed.

(** The callback clears the flag when it runs to its end: at once when the
    guard fails, after the send when the send returns. *)
Lemma callback_clears_flag s buf rest st i :
  reading s = buf :: rest → ws s = Some i → socks s !! i = Some st → st ≠ CONNECTING →
  sending (step EBufferReady s) = false.
Proof.
  destruct s as [nw sk w tm sd co cf cv vr mp rf en rd cl sh cs un]; simpl.
  intros -> -> Hst Hne. unfold_task; simpl. rewrite Hst.
  destruct st; done.
Qed.

Lemma frames_app cs1 cs2 : frames (cs1 ++ cs2) = frames cs1 ++ frames cs2.
Proof. apply omap_app. Qed.

Lemma frames_text cs : Forall (λ c, ∃ t, sc_msg c = Text t) cs → frames cs = [].
Proof.
  induction 1 as [|c cs [t Ht] _ IH]; [done|].
  unfold frames in *; simpl. rewrite Ht; simpl. exact IH.
Qed.

(** Once the flag is up with nothing under way, no task takes it down, and
    what is sent from then on is text. *)
Lemma stuck_step e s :
  stuck s →
  stuck (step e s) ∧
  ∃ cs, calls (step e s) = calls s ++ cs ∧ Forall (λ c, ∃ t, sc_msg c = Text t) cs.
Proof.
  unfold stuck.
  destruct s as [nw sk w tm sd co cf cv vr mp rf en rd cl sh cs un]; simpl.
  intros (-> & -> & ->).
  destruct e; simpl; unfold_task; simpl; case_fields; simpl in *;
    (split; [done|]);
    first [ by (exists []; rewrite app_nil_r)
          | eexists; (split; [try reflexivity; rewrite <- ?app_assoc; reflexivity|]);
            repeat constructor; eauto ].
Qed.

Lemma stuck_run evs : ∀ s, stuck s → stuck (run evs s).
Proof.
  induction evs as [|e evs IH]; intros s H; simpl; [done|].
  apply IH. destruct (stuck_step e s H) as [? _]; done.
Qed.

Lemma stuck_frames evs : ∀ s, stuck s → frames (calls (run evs s)) = frames (calls s).
Proof.
  induction evs as [|e evs IH]; intros s H; simpl; [done|].
  destruct (stuck_step e s H) as [H1 (c & H2 & H3)].
  rewrite (IH _ H1), H2, frames_app, (frames_text _ H3), app_nil_r. done.
Qed.

(** ** Reconnection *)

(** Every close of a socket schedules one reconnect, a second ahead. *)
Lemma close_schedules_one s i st :
  socks s !! i = Some st → st ≠ CLOSED →
  timers (step (EClose i) s) = timers s ++ [(now s + 1000)%N] ∧
  socks (step (EClose i) s) = <[i := CLOSED]> (socks s).
Proof.
  destruct s as [nw sk w tm sd co cf cv vr mp rf en rd cl sh cs un]; simpl.
  intros Hst Hne. rewrite Hst. destruct st; done.
Qed.

(** A socket closes once: a closed socket schedules nothing more. *)
Lemma close_once s i : socks s !! i = Some CLOSED → step (EClose i) s = s.
Proof.
  destruct s as [nw sk w tm sd co cf cv vr mp rf en rd cl sh cs un]; simpl.
  intros ->. reflexivity.
Qed.

(** Clicks before any handshake completes each open one more connection:
    the sockets under way in parallel are as many as the clicks. *)
Lemma clicks_connect_in_parallel n : ∀ s,
  Forall (λ st, st = CONNECTING) (socks s) →
  socks (run (replicate n EClick) s) = socks s ++ replicate n CONNECTING.
Proof.
  induction n as [|n IH]; intros s Hs; [by rewrite app_nil_r|].
  change (run (replicate (S n) EClick) s) with (run (replicate n EClick) (step EClick s)).
  assert (Hstep : socks (step EClick s) = socks s ++ [CONNECTING]).
  { destruct s as [nw sk w tm sd co cf cv vr mp rf en rd cl sh cs un]; simpl in *.
    unfold_task; unfold ws_open; simpl. destruct w as [i|]; [|done].
    destruct (sk !! i) as [st|] eqn:Hi; simpl; [|done].
    rewrite Forall_forall in Hs.
    rewrite (Hs st) by (eapply list_elem_of_lookup_2; eauto). done. }
  rewrite IH, Hstep; [by rewrite <- app_assoc|].
  rewrite Hstep. apply Forall_app. split; [done|]. by constructor.
Qed.

(** ** One connection at a time, for a patient user *)

Lemma filter_insert_length {A} (P : A → Prop) `{∀ x, Decision (P x)} l i a b :
  l !! i = Some a →
  length (filter P (<[i := b]> l)) + (if decide (P a) then 1 else 0)
  = length (filter P l) + (if decide (P b) then 1 else 0).
Proof.
  revert i. induction l as [|x l IH]; intros [|i] Hi; simpl in *; try done.
  - injection Hi as ->. rewrite !filter_cons.
    destruct (decide (P a)), (decide (P b)); simpl; lia.
  - rewrite !filter_cons. specialize (IH i Hi).
    destruct (decide (P x)); simpl; lia.
Qed.

Lemma connections_step e s :
  patient_click e s → connections s ≤ 1 → connections (step e s) ≤ 1.
Proof.
  unfold patient_click, connections, ws_open.
  destruct s as [nw sk w tm sd co cf cv vr mp rf en rd cl sh cs un]; simpl.
  intros Hp Hc.
  destruct e as [ms| | | |rs| |blob| |i|i|i|i data| |v0|v0].
  - done.
  - (* click *)
    simpl; unfold_task; unfold ws_open; simpl.
    destruct (Hp eq_refl) as [Ho|H0].
    + rewrite Ho. simpl. done.
    + destruct w as [i|]; simpl.
      * destruct (bool_decide (sk !! i = Some OPEN)); simpl; [done|].
        rewrite filter_app, length_app. simpl. lia.
      * rewrite filter_app, length_app. simpl. lia.
  - simpl; unfold_task; simpl; case_fields; done.
  - simpl; unfold_task; simpl; case_fields; done.
  - done.
  - simpl; unfold_task; simpl; case_fields; done.
  - simpl; unfold_task; simpl; case_fields; done.
  - simpl; unfold_task; simpl; case_fields; done.
  - (* open *)
    simpl. destruct (sk !! i) as [[]|] eqn:Hi; try done.
    pose proof (filter_insert_length (λ st, st ≠ CLOSED) sk i CONNECTING OPEN Hi) as Hf.
    simpl in Hf. unfold_task; simpl. case_fields; simpl; lia.
  - (* closing *)
    simpl. destruct (sk !! i) as [[]|] eqn:Hi; simpl; try done.
    + pose proof (filter_insert_length (λ st, st ≠ CLOSED) sk i CONNECTING CLOSING Hi) as Hf.
      simpl in Hf. lia.
    + pose proof (filter_insert_length (λ st, st ≠ CLOSED) sk i OPEN CLOSING Hi) as Hf.
      simpl in Hf. lia.
  - (* close *)
    simpl. destruct (sk !! i) as [[]|] eqn:Hi; simpl; try done; rewrite length_app; simpl.
    + pose proof (filter_insert_length (λ st, st ≠ CLOSED) sk i CONNECTING CLOSED Hi) as Hf.
      simpl in Hf. lia.
    + pose proof (filter_insert_length (λ st, st ≠ CLOSED) sk i OPEN CLOSED Hi) as Hf.
      simpl in Hf. lia.
    + pose proof (filter_insert_length (λ st, st ≠ CLOSED) sk i CLOSING CLOSED Hi) as Hf.
      simpl in Hf. lia.
  - simpl; unfold_task; simpl; case_fields; done.
  - (* timer *)
    simpl. destruct tm as [|due rest]; simpl; [done|].
    destruct (N.leb due nw); simpl; [|done].
    rewrite filter_app, length_app. simpl in *. lia.
  - simpl; unfold_task; unfold ws_open; simpl; case_fields; done.
  - simpl; unfold_task; unfold ws_open; simpl; case_fields; done.
Qed.

(** As long as the user clicks only when the socket is open or when no
    connection is live or scheduled, there is never more than one connection,
    live or scheduled. *)
Theorem one_connection_at_a_time evs : ∀ s,
  connections s ≤ 1 → patient evs s → connections (run evs s) ≤ 1.
Proof.
  induction evs as [|e evs IH]; intros s Hc Hp; simpl; [done|].
  destruct Hp as [Hp1 Hp2]. apply IH; [|done]. by apply connections_step.
Qed.

Lemma one_connection_at_a_time_witness :
  connections (run [EClick; EOpen 0; EClick; EClose 0; EElapse 1000; ETimer; EOpen 1; EClick]
                 (init [] [] [])) ≤ 1.
Proof.
  apply one_connection_at_a_time.
  - vm_compute. lia.
  - cbn [patient]. repeat split; intros Heq; try discriminate Heq; vm_compute; auto.
Defined.

(** ** Settings on the handshake *)

(** When the socket that completes its handshake is the one [ws] names, the
    two settings go out on it, in order. *)
Lemma onopen_current s i :
  ws s = Some i → socks s !! i = Some CONNECTING →
  calls (step (EOpen i) s) =
    calls s ++ [mkCall i OPEN (Text (lit "color=" ++ color s));
                mkCall i OPEN (Text (lit "conf=" ++ conf s))] ∧
  uncaught (step (EOpen i) s) = uncaught s.
Proof.
  destruct s as [nw sk w tm sd co cf cv vr mp rf en rd cl sh cs un]; simpl.
  intros -> Hst. rewrite Hst. unfold_task; simpl.
  assert (Hi : i < length sk) by (eapply lookup_lt_Some; eauto).
  rewrite (list_lookup_insert_eq sk i OPEN Hi); simpl.
  rewrite (list_lookup_insert_eq sk i OPEN Hi); simpl.
  rewrite <- app_assoc. done.
Qed.

(** ** On every connection the settings come first *)

Lemma wire_sent_on i s : wire i s = sent_on i (calls s).
Proof. reflexivity. Qed.

Lemma sent_on_snoc i cl call :
  sent_on i (cl ++ [call]) =
    sent_on i cl ++ (if decide (sc_sock call = i ∧ sc_state call = OPEN)
                     then [sc_msg call] else []).
Proof.
  unfold sent_on. rewrite filter_app, fmap_app. f_equal.
  rewrite filter_cons, filter_nil. by case_decide.
Qed.

Lemma settings_first_app msgs more :
  msgs ≠ [] → settings_first msgs → settings_first (msgs ++ more).
Proof.
  intros Hne [->|(c & v & rest & ->)]; [done|].
  right. exists c, v, (rest ++ more). done.
Qed.

(** A new socket, bound to [ws]. *)
Lemma settled_connect sk w cl :
  settled sk w cl → settled (sk ++ [CONNECTING]) (Some (length sk)) cl.
Proof.
  intros (J1 & J2 & J3 & J4). repeat split.
  - done.
  - intros j [= <-]. rewrite length_app. simpl. lia.
  - intros j [= <-]. rewrite lookup_app_r, Nat.sub_diag by done. done.
  - intros i Hi. apply J4. destruct (decide (i < length sk)) as [Hlt|Hge].
    + rewrite lookup_app_l in Hi by done. done.
    + right. apply lookup_ge_None. lia.
Qed.

(** A socket leaves the state [OPEN] or [CONNECTING] for a later one. *)
Lemma settled_close sk w cl i st :
  st = CLOSING ∨ st = CLOSED →
  settled sk w cl → settled (<[i := st]> sk) w cl.
Proof.
  intros Hst (J1 & J2 & J3 & J4). repeat split.
  - done.
  - intros j Hj. rewrite length_insert. by apply J2.
  - intros j Hj Ho. apply J3; [done|].
    destruct (decide (i = j)) as [->|Hne].
    + apply list_lookup_insert_Some in Ho as [(_ & Heq & _)|[? _]]; [|done].
      destruct Hst; congruence.
    + by rewrite list_lookup_insert_ne in Ho.
  - intros k Hk. apply J4. destruct (decide (i = k)) as [->|Hne].
    + destruct Hk as [Hk|Hk].
      * apply list_lookup_insert_Some in Hk as [(_ & Heq & _)|[? _]]; [|done].
        destruct Hst; congruence.
      * right. apply lookup_ge_None in Hk. rewrite length_insert in Hk.
        by apply lookup_ge_None.
    + by rewrite list_lookup_insert_ne in Hk.
Qed.

(** A socket that [ws] does not name completes its handshake. *)
Lemma settled_open_other sk w cl i :
  w ≠ Some i → settled sk w cl → settled (<[i := OPEN]> sk) w cl.
Proof.
  intros Hw (J1 & J2 & J3 & J4). repeat split.
  - done.
  - intros j Hj. rewrite length_insert. by apply J2.
  - intros j Hj Ho. apply J3; [done|].
    rewrite list_lookup_insert_ne in Ho; [done|]. intros ->. done.
  - intros k Hk. apply J4. destruct (decide (i = k)) as [->|Hne].
    + destruct Hk as [Hk|Hk].
      * apply list_lookup_insert_Some in Hk as [(_ & ? & _)|[? _]]; done.
      * right. apply lookup_ge_None in Hk. rewrite length_insert in Hk.
        by apply lookup_ge_None.
    + by rewrite list_lookup_insert_ne in Hk.
Qed.

(** A call of [send] on the socket that [ws] names, once it has opened. *)
Lemma settled_send sk w cl j st m :
  w = Some j → sk !! j = Some st → st ≠ CONNECTING →
  settled sk w cl → settled sk w (cl ++ [mkCall j st m]).
Proof.
  intros Hw Hj Hst (J1 & J2 & J3 & J4). repeat split.
  - intros i. rewrite sent_on_snoc. simpl. case_decide as Hd; [|by rewrite app_nil_r].
    destruct Hd as [<- ->]. apply settings_first_app; [by apply J3|done].
  - done.
  - intros k Hk Ho. rewrite sent_on_snoc. intros Happ.
    apply app_eq_nil in Happ as [Happ _]. by eapply J3.
  - intros i Hi. rewrite sent_on_snoc. simpl. rewrite (J4 i Hi).
    case_decide as Hd; [|done]. destruct Hd as [<- ->].
    destruct Hi as [Hi|Hi]; congruence.
Qed.

(** The socket that [ws] names completes its handshake and its settings go
    out. *)
Lemma settled_open_own sk cl i c v :
  sk !! i = Some CONNECTING → settled sk (Some i) cl →
  settled (<[i := OPEN]> sk) (Some i)
    (cl ++ [mkCall i OPEN (Text (lit "color=" ++ c));
            mkCall i OPEN (Text (lit "conf=" ++ v))]).
Proof.
  intros Hi (J1 & J2 & J3 & J4).
  assert (Hsent : ∀ k, sent_on k (cl ++ [mkCall i OPEN (Text (lit "color=" ++ c));
                                         mkCall i OPEN (Text (lit "conf=" ++ v))])
                       = sent_on k cl ++ (if decide (i = k)
                                          then [Text (lit "color=" ++ c); Text (lit "conf=" ++ v)]
                                          else [])).
  { intros k. unfold sent_on. rewrite filter_app, fmap_app. f_equal.
    rewrite !filter_cons, filter_nil. simpl.
    destruct (decide (i = k)) as [->|Hne].
    - rewrite !decide_True by done. done.
    - rewrite !decide_False by (intros [? _]; done). done. }
  repeat split.
  - intros k. rewrite Hsent. destruct (decide (i = k)) as [<-|Hne].
    + rewrite (J4 i) by eauto. right. by exists c, v, [].
    + rewrite app_nil_r. apply J1.
  - intros j Hj. rewrite length_insert. by apply J2.
  - intros j [= <-] _. rewrite Hsent, decide_True by done.
    intros Happ. apply app_eq_nil in Happ as [_ Happ]. done.
  - intros k Hk. rewrite Hsent. destruct (decide (i = k)) as [<-|Hne].
    + destruct Hk as [Hk|Hk].
      * apply list_lookup_insert_Some in Hk as [(_ & ? & _)|[? _]]; done.
      * apply lookup_ge_None in Hk. rewrite length_insert in Hk.
        apply lookup_lt_Some in Hi. lia.
    + rewrite app_nil_r. apply J4. by rewrite list_lookup_insert_ne in Hk.
Qed.

Lemma settled_init c v cv : settled_state (init c v cv).
Proof.
  repeat split; simpl; try done.
  intros i. by left.
Qed.

Lemma settled_step e s : settled_state s → settled_state (step e s).
Proof.
  unfold settled_state.
  destruct s as [nw sk w tm sd co cf cv vr mp rf en rd cl sh cs un]; simpl.
  intros H.
  destruct e as [ms| | | |rs| |blob| |i|i|i|i data| |v0|v0].
  - done.
  - (* click *)
    simpl; unfold_task; unfold ws_open; simpl.
    destruct w as [j|]; simpl.
    + destruct (bool_decide (sk !! j = Some OPEN)); simpl; [done|].
      exact (settled_connect _ _ _ H).
    + exact (settled_connect _ _ _ H).
  - simpl; unfold_task; simpl; case_fields; done.
  - simpl; unfold_task; simpl; case_fields; done.
  - done.
  - simpl; unfold_task; simpl; case_fields; done.
  - simpl; unfold_task; simpl; case_fields; done.
  - (* the buffer is ready: send *)
    simpl. destruct rd as [|buf rest]; [done|].
    unfold_task; simpl.
    destruct w as [j|]; simpl; [|done].
    destruct (sk !! j) as [[]|] eqn:Hj; simpl; try done.
    all: by eapply settled_send.
  - (* open *)
    simpl. destruct (sk !! i) as [[]|] eqn:Hi; try done.
    unfold_task; simpl.
    destruct w as [j|]; simpl; [|by apply settled_open_other].
    destruct (decide (j = i)) as [->|Hne].
    + rewrite list_lookup_insert_eq by (by eapply lookup_lt_Some). simpl.
      rewrite list_lookup_insert_eq by (by eapply lookup_lt_Some). simpl.
      rewrite <- app_assoc. simpl. by apply settled_open_own.
    + assert (Hw : Some j ≠ Some i) by congruence.
      pose proof (settled_open_other _ _ _ i Hw H) as H'.
      rewrite list_lookup_insert_ne by done.
      destruct (sk !! j) as [[]|] eqn:Hj; simpl; try done.
      all: rewrite list_lookup_insert_ne, Hj by done; simpl.
      all: eapply settled_send; [done|by rewrite list_lookup_insert_ne|done|].
      all: eapply settled_send; [done|by rewrite list_lookup_insert_ne|done|done].
  - (* closing *)
    simpl. destruct (sk !! i) as [[]|] eqn:Hi; simpl; try done.
    all: apply settled_close; auto.
  - (* close *)
    simpl. destruct (sk !! i) as [[]|] eqn:Hi; simpl; try done.
    all: apply settled_close; auto.
  - simpl; unfold_task; simpl; case_fields; done.
  - (* timer *)
    simpl. destruct tm as [|due rest]; simpl; [done|].
    destruct (N.leb due nw); simpl; [|done].
    exact (settled_connect _ _ _ H).
  - (* colour *)
    simpl; unfold_task; unfold ws_open; simpl.
    destruct w as [j|]; simpl; [|done].
    case_bool_decide as Hj; simpl; [|done].
    rewrite Hj. simpl. by eapply settled_send.
  - (* confidence *)
    simpl; unfold_task; unfold ws_open; simpl.
    destruct w as [j|]; simpl; [|done].
    case_bool_decide as Hj; simpl; [|done].
    rewrite Hj. simpl. by eapply settled_send.
Qed.

Lemma settled_run evs : ∀ s, settled_state s → settled_state (run evs s).
Proof.
  induction evs as [|e evs IH]; intros s H; simpl; [done|].
  apply IH, settled_step, H.
Qed.

(** For every run of the event loop and on every socket, whatever was
    transmitted starts with the two settings messages: no frame reaches the
    server before them. *)
Theorem settings_before_frames c v cv evs i :
  settings_first (wire i (run evs (init c v cv))).
Proof.
  pose proof (settled_run evs _ (settled_init c v cv)) as (H & _).
  rewrite wire_sent_on. apply H.
Qed.

(** ** The guard of the send *)

Lemma step_frames e s b :
  b ∈ frames (calls (step e s)) ++ reading (step e s) →
  b ∈ (frames (calls s) ++ reading s) ++ accepted_by e s.
Proof.
  unfold accepted_by.
  destruct s as [nw sk w tm sd co cf cv vr mp rf en rd cl sh cs un]; simpl.
  destruct e; simpl; unfold_task; unfold ws_open; simpl; case_fields; simpl in *;
    rewrite ?frames_app; unfold frames; simpl; rewrite ?app_nil_r;
    try discriminate; try congruence; try done;
    rewrite ?elem_of_app, ?elem_of_cons, ?elem_of_nil; tauto.
Qed.

Lemma run_frames evs : ∀ s b,
  b ∈ frames (calls (run evs s)) ++ reading (run evs s) →
  b ∈ (frames (calls s) ++ reading s) ++ accepted evs s.
Proof.
  induction evs as [|e evs IH]; intros s b H; simpl in *.
  - rewrite app_nil_r. done.
  - apply IH in H. apply elem_of_app in H as [H|H].
    + apply step_frames in H. rewrite !elem_of_app in *. tauto.
    + rewrite !elem_of_app. tauto.
Qed.

Lemma elem_of_frames c b cs : c ∈ cs → sc_msg c = Binary b → b ∈ frames cs.
Proof.
  intros Hc Hb. unfold frames. apply list_elem_of_omap.
  exists c. rewrite Hb. done.
Qed.

(** What the guard of line 124 does give.  A payload is passed to [send]
    only if encoding produced it and the guard let it through when encoding
    completed; when the guard fails, nothing is sent and the flag is
    cleared; when it lets the payload through, the payload waits for its
    buffer and nothing else changes. *)
Lemma guard_outcomes :
  (∀ c v cv evs call b,
     call ∈ calls (run evs (init c v cv)) → sc_msg call = Binary b →
     b ∈ accepted evs (init c v cv)) ∧
  (∀ s blob n,
     encoding s = S n → blob = None ∨ ws_open s = false →
     let s' := step (EEncoded blob) s in
     calls s' = calls s ∧ reading s' = reading s ∧ sending s' = false ∧ encoding s' = n) ∧
  (∀ s b n,
     encoding s = S n → ws_open s = true →
     let s' := step (EEncoded (Some b)) s in
     calls s' = calls s ∧ reading s' = reading s ++ [b] ∧ sending s' = sending s ∧
     encoding s' = n).
Proof.
  split; [|split].
  - intros c v cv evs call b Hc Hb.
    pose proof (run_frames evs (init c v cv) b) as H. simpl in H.
    apply H. rewrite elem_of_app. left. eapply elem_of_frames; eauto.
  - intros s blob n Hn Hg.
    destruct s as [nw sk w tm sd co cf cv vr mp rf en rd cl sh cs un]; simpl in *.
    subst en. unfold_task; unfold ws_open in *; simpl in *.
    destruct blob as [b|]; [|done].
    destruct Hg as [?|Hg]; [done|]. rewrite Hg. done.
  - intros s b n Hn Hg.
    destruct s as [nw sk w tm sd co cf cv vr mp rf en rd cl sh cs un]; simpl in *.
    subst en. unfold_task; unfold ws_open in *; simpl in *.
    rewrite Hg. done.
Qed.

(** ** Sockets that [ws] no longer names *)

Lemma orphan_step i e s :
  orphan i s → orphan i (step e s) ∧ wire i (step e s) = wire i s.
Proof.
  unfold orphan, wire.
  destruct s as [nw sk w tm sd co cf cv vr mp rf en rd cl sh cs un]; simpl.
  intros (j & -> & Hj).
  destruct e; simpl; unfold_task; unfold ws_open; simpl; case_fields; simpl in *;
    rewrite ?length_insert, ?length_app, ?filter_app, ?fmap_app; simpl;
    rewrite ?filter_cons, ?filter_nil; simpl;
    repeat (case_decide; simpl); rewrite ?app_nil_r;
    try (split; [eexists; split; [reflexivity|simpl; lia] | reflexivity]);
    try (exfalso; intuition lia).
Qed.

Lemma orphan_run i evs : ∀ s, orphan i s → wire i (run evs s) = wire i s.
Proof.
  induction evs as [|e evs IH]; intros s H; simpl; [done|].
  destruct (orphan_step i e s H) as [H1 H2]. rewrite (IH _ H1). exact H2.
Qed.

(** ** Reconnecting after a close *)

(** A socket that closes is replaced a second later, and not before,
    without any click: the timer that [onclose] set makes a new socket and
    binds [ws] to it. *)
Theorem reconnect_after_a_second s i st ms :
  socks s !! i = Some st → st ≠ CLOSED → timers s = [] →
  let s1 := step (EElapse ms) (step (EClose i) s) in
  if (1000 <=? ms)%N
  then socks (step ETimer s1) = <[i := CLOSED]> (socks s) ++ [CONNECTING] ∧
       ws (step ETimer s1) = Some (length (socks s)) ∧
       timers (step ETimer s1) = []
  else step ETimer s1 = s1.
Proof.
  destruct s as [nw sk w tm sd co cf cv vr mp rf en rd cl sh cs un]; simpl.
  intros Hst Hne ->. rewrite Hst.
  assert (Hdue : ((nw + 1000 <=? nw + ms) = (1000 <=? ms))%N).
  { destruct (N.leb_spec 1000 ms); [apply N.leb_le|apply N.leb_gt]; lia. }
  destruct st; try done; unfold_task; simpl; rewrite Hdue;
    destruct (1000 <=? ms)%N; simpl; rewrite ?length_insert; done.
Qed.

Lemma reconnect_after_a_second_witness :
  let s := run [EClick; EOpen 0] (init [] [] []) in
  socks (run [EClose 0; EElapse 1500; ETimer] s) = [CLOSED; CONNECTING] ∧
  socks (run [EClose 0; EElapse 999; ETimer] s) = [CLOSED].
Proof.
  intros s. assert (Hne : OPEN ≠ CLOSED) by discriminate. split.
  - exact (proj1 (reconnect_after_a_second s 0 OPEN 1500%N eq_refl Hne eq_refl)).
  - exact (eq_trans
             (f_equal socks (reconnect_after_a_second s 0 OPEN 999%N eq_refl Hne eq_refl))
             eq_refl).
Defined.

(** ** Settings changed before the handshake *)

Lemma colour_while_not_open s c :
  ws_open s = false → step (EColor c) s = set_color c s.
Proof.
  destruct s as [nw sk w tm sd co cf cv vr mp rf en rd cl sh cs un].
  unfold ws_open; simpl. intros Hw. unfold_task; unfold ws_open; simpl.
  by rewrite Hw.
Qed.

Lemma conf_while_not_open s v :
  ws_open s = false → step (EConf v) s = set_confVal v (set_conf v s).
Proof.
  destruct s as [nw sk w tm sd co cf cv vr mp rf en rd cl sh cs un].
  unfold ws_open; simpl. intros Hw. unfold_task; unfold ws_open; simpl.
  by rewrite Hw.
Qed.

(** A colour and a confidence picked while the socket is still connecting
    are not sent and raise no error; they are the ones the handshake
    sends. *)
Theorem settings_changed_while_connecting s i c v :
  ws s = Some i → socks s !! i = Some CONNECTING →
  let s1 := step (EConf v) (step (EColor c) s) in
  calls s1 = calls s ∧ uncaught s1 = uncaught s ∧ confVal s1 = v ∧
  calls (step (EOpen i) s1) =
    calls s ++ [mkCall i OPEN (Text (lit "color=" ++ c));
                mkCall i OPEN (Text (lit "conf=" ++ v))] ∧
  uncaught (step (EOpen i) s1) = uncaught s.
Proof.
  intros Hw Hst s1.
  assert (Hclosed : ws_open s = false).
  { unfold ws_open. rewrite Hw. apply bool_decide_eq_false_2. rewrite Hst. discriminate. }
  assert (Hs1 : s1 = set_confVal v (set_conf v (set_color c s))).
  { unfold s1. rewrite (colour_while_not_open s c Hclosed).
    apply conf_while_not_open. exact Hclosed. }
  destruct (onopen_current s1 i) as [Hc Hu].
  { rewrite Hs1. exact Hw. }
  { rewrite Hs1. exact Hst. }
  rewrite Hc, Hu, Hs1. done.
Qed.

Lemma settings_changed_while_connecting_witness :
  let s := run [EClick; EColor (lit "blue"); EConf (lit "0.8"); EOpen 0]
             (init (lit "red") (lit "0.5") (lit "0.5")) in
  calls s = [mkCall 0 OPEN (Text (lit "color=blue")); mkCall 0 OPEN (Text (lit "conf=0.8"))].
Proof.
  intros s.
  destruct (settings_changed_while_connecting
              (step EClick (init (lit "red") (lit "0.5") (lit "0.5"))) 0
              (lit "blue") (lit "0.8") eq_refl eq_refl) as (_ & _ & _ & H & _).
  exact H.
Defined.

(** ** The capture loops *)

Lemma clicks_cons e evs :
  clicks (e :: evs) = (match e with EClick => 1 | _ => 0 end) + clicks evs.
Proof. unfold clicks. simpl. by destruct e. Qed.

Lemma loops_step e s :
  raf s ≤ raf (step e s) ∧
  raf (step e s) + media_pending (step e s)
    ≤ raf s + media_pending s + (match e with EClick => 1 | _ => 0 end).
Proof.
  destruct s as [nw sk w tm sd co cf cv vr mp rf en rd cl sh cs un].
  destruct e; simpl; unfold_task; unfold ws_open; simpl; case_fields; simpl in *; lia.
Qed.

(** A capture loop, once started, is never stopped: the callbacks queued
    for the next animation frame never get fewer.  Each click asks for the
    camera once more and each grant starts one more loop, so the loops and
    the requests still pending are at most as many as the clicks. *)
Theorem capture_loops evs : ∀ s,
  raf s ≤ raf (run evs s) ∧
  raf (run evs s) + media_pending (run evs s) ≤ raf s + media_pending s + clicks evs.
Proof.
  induction evs as [|e evs IH]; intros s.
  - unfold clicks; simpl. lia.
  - change (run (e :: evs) s) with (run evs (step e s)).
    rewrite clicks_cons.
    destruct (IH (step e s)) as [IH1 IH2], (loops_step e s) as [H1 H2]. lia.
Qed.

(** ** What it takes to send a frame *)

Lemma quiet_run (I : State → Prop) (trigger : Event → Prop) :
  (∀ e s, I s → quiet s → trigger e ∨ (I (step e s) ∧ quiet (step e s))) →
  ∀ evs s, I s → quiet s →
    (∃ e, e ∈ evs ∧ trigger e) ∨ (I (run evs s) ∧ quiet (run evs s)).
Proof.
  intros Hstep. induction evs as [|e evs IH]; intros s HI Hq.
  - right. done.
  - change (run (e :: evs) s) with (run evs (step e s)).
    destruct (Hstep e s HI Hq) as [Ht|[HI' Hq']].
    + left. exists e. split; [apply elem_of_cons; by left|done].
    + destruct (IH _ HI' Hq') as [(e' & He' & Ht)|Hr]; [|by right].
      left. exists e'. split; [apply elem_of_cons; by right|done].
Qed.

Lemma quiet_until_click e s :
  media_pending s = 0 ∧ raf s = 0 → quiet s →
  e = EClick ∨ ((media_pending (step e s) = 0 ∧ raf (step e s) = 0) ∧ quiet (step e s)).
Proof.
  unfold quiet.
  destruct s as [nw sk w tm sd co cf cv vr mp rf en rd cl sh cs un]; simpl.
  intros [-> ->] (-> & -> & Hf).
  destruct e; try (by left); right; simpl; unfold_task; unfold ws_open; simpl;
    case_fields; simpl in *; rewrite ?frames_app, ?Hf; done.
Qed.

Lemma quiet_until_granted e s :
  raf s = 0 → quiet s →
  e = EMediaGranted ∨ (raf (step e s) = 0 ∧ quiet (step e s)).
Proof.
  unfold quiet.
  destruct s as [nw sk w tm sd co cf cv vr mp rf en rd cl sh cs un]; simpl.
  intros -> (-> & -> & Hf).
  destruct e; try (by left); right; simpl; unfold_task; unfold ws_open; simpl;
    case_fields; simpl in *; rewrite ?frames_app, ?Hf; done.
Qed.

Lemma quiet_until_video e s :
  (video_readyState s < 2)%N → quiet s →
  (∃ rs, e = EVideo rs ∧ (2 ≤ rs)%N) ∨
  ((video_readyState (step e s) < 2)%N ∧ quiet (step e s)).
Proof.
  unfold quiet.
  destruct s as [nw sk w tm sd co cf cv vr mp rf en rd cl sh cs un]; simpl.
  intros Hv (-> & -> & Hf).
  assert (Hvb : (2 <=? vr)%N = false) by (apply N.leb_gt; lia).
  destruct e as [ms| | | |rs| |blob| |i|i|i|i data| |v0|v0];
    try (right; simpl; unfold_task; unfold ws_open; simpl;
         rewrite ?Hvb, ?andb_false_r; simpl;
         case_fields; simpl in *; rewrite ?frames_app, ?Hf; done).
  destruct (N.lt_ge_cases rs 2) as [Hrs|Hrs].
  - right. simpl. done.
  - left. eauto.
Qed.

Lemma quiet_until_open e s :
  Forall (λ st, st ≠ OPEN) (socks s) → quiet s →
  (∃ i, e = EOpen i) ∨ (Forall (λ st, st ≠ OPEN) (socks (step e s)) ∧ quiet (step e s)).
Proof.
  unfold quiet.
  destruct s as [nw sk w tm sd co cf cv vr mp rf en rd cl sh cs un]; simpl.
  intros Hsk (-> & -> & Hf).
  assert (Hopen : ∀ j, bool_decide (sk !! j = Some OPEN) = false).
  { intros j. apply bool_decide_eq_false_2. intros Hj.
    by apply (Forall_lookup_1 _ _ _ _ Hsk Hj). }
  assert (Hins : ∀ j st, st ≠ OPEN → Forall (λ st, st ≠ OPEN) (<[j := st]> sk)).
  { intros j st Hst. by apply Forall_insert. }
  assert (Happ : Forall (λ st, st ≠ OPEN) (sk ++ [CONNECTING])).
  { apply Forall_app. split; [done|]. by repeat constructor. }
  destruct e as [ms| | | |rs| |blob| |i|i|i|i data| |v0|v0];
    try (by left; eauto); right; simpl; unfold_task; unfold ws_open; simpl.
  all: try (destruct w as [j|]; simpl; rewrite ?Hopen; simpl).
  all: case_fields; simpl in *; rewrite ?frames_app, ?Hf; try done.
  all: try (rewrite andb_false_r in *; discriminate).
  all: try (split; [|done]); try (apply Hins; discriminate).
Qed.

(** No frame is passed to [send] unless, earlier in the run, the user
    clicked the start button, the camera was granted, the video element
    reported data ([readyState] 2 or more) and a socket completed its
    handshake. *)
Theorem what_a_frame_takes c v cv evs :
  frames (calls (run evs (init c v cv))) ≠ [] →
  EClick ∈ evs ∧ EMediaGranted ∈ evs ∧
  (∃ rs, EVideo rs ∈ evs ∧ (2 ≤ rs)%N) ∧ (∃ i, EOpen i ∈ evs).
Proof.
  intros Hf.
  assert (Hq : quiet (init c v cv)) by done.
  split; [|split; [|split]].
  - destruct (quiet_run _ _ quiet_until_click evs (init c v cv)) as [(e & He & ->)|[_ Hr]];
      [done|done|done|]. destruct Hr as (_ & _ & Hr). done.
  - destruct (quiet_run _ _ quiet_until_granted evs (init c v cv)) as [(e & He & ->)|[_ Hr]];
      [done|done|done|]. destruct Hr as (_ & _ & Hr). done.
  - destruct (quiet_run _ _ quiet_until_video evs (init c v cv))
      as [(e & He & rs & -> & Hrs)|[_ Hr]]; [simpl; lia|done|eauto|].
    destruct Hr as (_ & _ & Hr). done.
  - destruct (quiet_run _ _ quiet_until_open evs (init c v cv))
      as [(e & He & i & ->)|[_ Hr]]; [by constructor|done|eauto|].
    destruct Hr as (_ & _ & Hr). done.
Qed.

Lemma what_a_frame_takes_witness :
  EClick ∈ closed_during_read ∧ EMediaGranted ∈ closed_during_read ∧
  (∃ rs, EVideo rs ∈ closed_during_read ∧ (2 ≤ rs)%N) ∧
  (∃ i, EOpen i ∈ closed_during_read).
Proof.
  apply (what_a_frame_takes [] [] [] closed_during_read).
  vm_compute. discriminate.
Defined.

(** ** What the page shows and logs *)




(** ** Frames in order *)

Lemma frames_step e s :
  frames (calls (step e s)) ++ reading (step e s)
    `sublist_of` (frames (calls s) ++ reading s) ++ accepted_by e s.
Proof.
  unfold accepted_by.
  destruct s as [nw sk w tm sd co cf cv vr mp rf en rd cl sh cs un]; simpl.
  destruct e as [ms| | | |rs| |blob| |i|i|i|i data| |v0|v0];
    simpl; unfold_task; unfold ws_open; simpl; case_fields; simpl in *;
    rewrite ?frames_app; unfold frames; simpl; rewrite ?app_nil_r, <- ?app_assoc;
    try done; try discriminate.
  all: try (apply sublist_app; [done|]; by apply sublist_cons).
Qed.

(** The frames passed to [send] are frames that were encoded while the
    socket was open, in the order they were encoded and each at most
    once. *)
Theorem frames_once_in_order c v cv evs :
  frames (calls (run evs (init c v cv))) `sublist_of` accepted evs (init c v cv).
Proof.
  assert (Hgen : ∀ s, frames (calls (run evs s)) ++ reading (run evs s)
                        `sublist_of` (frames (calls s) ++ reading s) ++ accepted evs s).
  { induction evs as [|e evs IH]; intros s.
    - simpl. by rewrite app_nil_r.
    - change (run (e :: evs) s) with (run evs (step e s)). simpl.
      etrans; [apply IH|]. rewrite (app_assoc _ (accepted_by e s)).
      apply sublist_app; [apply frames_step|done]. }
  etrans; [|apply (Hgen (init c v cv))]. by apply sublist_inserts_r.
Qed.

(** ** The claims on the streaming path *)

(** C1 (code defect).  The frame loop never has more than one operation
    under way ([inflight_le_1]), a tick that finds the flag set starts
    nothing ([tick_while_sending]) and the callback takes the flag down
    when it runs to its end ([callback_clears_flag]).  But the flag is not
    taken down when the send fails by throwing: in the runs
    [rebound_by_click] and [rebound_by_timer] the variable [ws] is rebound,
    while the frame is being read, to a socket that is still connecting, so
    [ws.send(buf)] throws and line 128 is not reached.  From then on,
    whatever happens, the flag stays set with nothing under way and no frame
    is sent. *)
Theorem C1_flag_stays_set c v cv evs :
  let s1 := run rebound_by_click (init c v cv) in
  let s2 := run rebound_by_timer (init c v cv) in
  (uncaught s1 = 1 ∧ sending (run evs s1) = true ∧ inflight (run evs s1) = 0 ∧
   frames (calls (run evs s1)) = []) ∧
  (uncaught s2 = 1 ∧ sending (run evs s2) = true ∧ inflight (run evs s2) = 0 ∧
   frames (calls (run evs s2)) = []).
Proof.
  intros s1 s2.
  assert (H1 : stuck s1) by (repeat split; reflexivity).
  assert (H2 : stuck s2) by (repeat split; reflexivity).
  split.
  - split; [reflexivity|].
    pose proof (stuck_run evs s1 H1) as (E1 & E2 & E3).
    pose proof (stuck_frames evs s1 H1) as E4.
    unfold inflight. rewrite E1, E2, E3, E4. done.
  - split; [reflexivity|].
    pose proof (stuck_run evs s2 H2) as (E1 & E2 & E3).
    pose proof (stuck_frames evs s2 H2) as E4.
    unfold inflight. rewrite E1, E2, E3, E4. done.
Qed.

(** C4 (code defect).  Every close schedules one reconnect a second ahead
    ([close_schedules_one]), but reconnects do run in parallel: the click
    handler connects whenever [ws] is not open, also while the timer of a
    closed socket is pending.  In the run [click_then_timer] one socket has
    closed and two connection attempts are under way; when both fail, two
    timers are pending. *)
Theorem C4_parallel_reconnects c v cv :
  let s := run click_then_timer (init c v cv) in
  socks s = [CLOSED; CONNECTING; CONNECTING] ∧ live s = [1; 2] ∧
  timers (run [EClose 1; EClose 2] s) = [2000%N; 2000%N].
Proof. repeat split; reflexivity. Qed.

(** C6 (code defect).  When the socket that completes its handshake is the one
    [ws] names, the two settings go out on it first ([onopen_current]).  But
    [onopen] sends on [ws], whichever socket opened: in the run [double_click]
    socket 0 completes its handshake while [ws] names socket 1, which is
    still connecting, so the first [send] throws and nothing is emitted; and
    nothing is ever transmitted on socket 0 afterwards. *)
Theorem C6_handshake_without_settings c v cv evs :
  let s := run double_click (init c v cv) in
  socks s = [OPEN; CONNECTING] ∧ ws s = Some 1 ∧ calls s = [] ∧ uncaught s = 1 ∧
  wire 0 (run evs s) = [].
Proof.
  intros s. repeat split; try reflexivity.
  rewrite (orphan_run 0 evs s); [reflexivity|].
  exists 1. split; [reflexivity|]. simpl. lia.
Qed.

(** C7.  While the socket is open, a change of the colour selector sends
    exactly one [color=<value>] message and a change of the confidence slider
    exactly one [conf=<value>] message, within the handler itself; the frame
    loop's state is neither consulted nor changed. *)
Theorem C7_settings_propagation s v :
  ws_open s = true →
  ∃ i, ws s = Some i ∧
    let sc := step (EColor v) s in
    let sf := step (EConf v) s in
    calls sc = calls s ++ [mkCall i OPEN (Text (lit "color=" ++ v))] ∧
    calls sf = calls s ++ [mkCall i OPEN (Text (lit "conf=" ++ v))] ∧
    (sending sc, encoding sc, reading sc, raf sc, uncaught sc) =
      (sending s, encoding s, reading s, raf s, uncaught s) ∧
    (sending sf, encoding sf, reading sf, raf sf, uncaught sf) =
      (sending s, encoding s, reading s, raf s, uncaught s).
Proof.
  destruct s as [nw sk w tm sd co cf cv vr mp rf en rd cl sh cs un].
  unfold ws_open; simpl. destruct w as [i|]; [|done].
  intros H%bool_decide_eq_true. exists i. split; [done|].
  simpl. unfold_task; unfold ws_open; simpl.
  rewrite !bool_decide_eq_true_2 by done. simpl. rewrite H. done.
Qed.

Lemma C7_settings_propagation_witness :
  let s := run [EClick; EOpen 0] (init (lit "red") (lit "0.5") (lit "0.5")) in
  calls (step (EColor (lit "blue")) s) =
    calls s ++ [mkCall 0 OPEN (Text (lit "color=blue"))].
Proof.
  intros s.
  destruct (C7_settings_propagation s (lit "blue") eq_refl) as (i & Hi & H & _).
  injection Hi as <-. exact H.
Defined.

(** C8 (code defect).  The guard of line 124 is evaluated when encoding
    completes, before [await blob.arrayBuffer()]; the [send] of line 126
    runs after it, without a second look, on whatever [ws] names by then.
    Both runs below start with [frame_encoding], which leaves the callback
    about to run with socket 0 open, so the guard lets the frame through.
    In the run [closed_during_read] the socket closes during the read and
    [send] is called on the closed socket; in the run [sent_on_next_socket]
    the user clicks during the read and the frame goes out on socket 1, which
    did not exist when the guard was evaluated.  So it is not true that a
    payload is only ever passed to [send] on an open socket.  What the guard
    does give is [guard_outcomes]. *)
Theorem C8_send_after_stale_guard c v cv :
  let guard := run frame_encoding (init c v cv) in
  let s1 := run closed_during_read (init c v cv) in
  let s2 := run sent_on_next_socket (init c v cv) in
  (closed_during_read =
     frame_encoding ++ [EEncoded (Some frame0); EClose 0; EBufferReady] ∧
   sent_on_next_socket =
     frame_encoding ++ [EEncoded (Some frame0); EClose 0; EClick; EOpen 1; EBufferReady]) ∧
  (socks guard = [OPEN] ∧ ws guard = Some 0 ∧ encoding guard = 1 ∧
   accepted_by (EEncoded (Some frame0)) guard = [frame0]) ∧
  (socks s1 = [CLOSED] ∧
   calls s1 = calls guard ++ [mkCall 0 CLOSED (Binary frame0)]) ∧
  (socks s2 = [CLOSED; OPEN] ∧
   calls s2 = calls guard ++ [mkCall 1 OPEN (Text (lit "color=" ++ c));
                              mkCall 1 OPEN (Text (lit "conf=" ++ v));
                              mkCall 1 OPEN (Binary frame0)]) ∧
  ¬ (∀ evs call b,
       call ∈ calls (run evs (init c v cv)) → sc_msg call = Binary b →
       sc_state call = OPEN).
Proof.
  intros guard s1 s2.
  split; [split; reflexivity|].
  split; [repeat split; vm_compute; reflexivity|].
  split; [split; vm_compute; reflexivity|].
  split; [split; vm_compute; reflexivity|].
  intros H.
  specialize (H closed_during_read (mkCall 0 CLOSED (Binary frame0)) frame0).
  assert (Hin : mkCall 0 CLOSED (Binary frame0) ∈ calls (run closed_during_read (init c v cv))).
  { apply (list_elem_of_lookup_2 _ 2). vm_compute. reflexivity. }
  specialize (H Hin eq_refl). discriminate H.
Qed.

End StreamFacts.

(** * Properties of the JSON functions *)

Module JSFacts.
Import JS.

Local Open Scope nat_scope.

(** ** The parser at work *)

Example parse_array :
  JSON_parse (lit " [1, -2.5e3, true, null, [ ]] ")
  = Normal (JArr [JNum (lit "1"); JNum (lit "-2.5e3"); JBool true; JNull; JArr []]).
Proof. reflexivity. Qed.

Example parse_object_order :
  JSON_parse (json_text "{'b':1,'10':2,'a':3,'9':4,'b':5}")
  = Normal (JObj [(lit "9", JNum (lit "4")); (lit "10", JNum (lit "2"));
                  (lit "b", JNum (lit "5")); (lit "a", JNum (lit "3"))]).
Proof. reflexivity. Qed.

Example parse_rejects :
  Forall (λ text, JSON_parse (lit text) = Thrown SyntaxError)
    ["{"; "[1,]"; "01"; "1."; "tru"; "[1 2]"; "{corrupt"; ""; "nul"; "[1]]"]%string.
Proof. repeat constructor. Qed.

(** ** What a parser leaves is no longer than what it was given *)

Lemma skip_ws_length s : length (skip_ws s) ≤ length s.
Proof.
  induction s as [|c s IH]; simpl; [done|].
  destruct (is_ws c); simpl; lia.
Qed.

Lemma skip_ws_cons s c r : skip_ws s = c :: r → length r < length s.
Proof.
  intros Hs. pose proof (skip_ws_length s) as Hl. rewrite Hs in Hl. simpl in Hl. lia.
Qed.

Lemma digits_length s d r : digits s = (d, r) → length r ≤ length s.
Proof.
  revert d r. induction s as [|c s IH]; simpl; intros d r.
  - intros [= <- <-]. done.
  - destruct (is_digit c).
    + destruct (digits s) as [d' r'] eqn:Hd. intros [= <- <-].
      specialize (IH _ _ eq_refl). lia.
    + intros [= <- <-]. simpl. lia.
Qed.

Lemma strip_length p s r : strip p s = Some r → length r ≤ length s.
Proof.
  revert s. induction p as [|a p IH]; intros s; simpl.
  - intros [= <-]. done.
  - destruct s as [|b s]; [done|]. destruct (N.eqb a b); [|done].
    intros Hs%IH. simpl. lia.
Qed.

Lemma parse_chars_length s : ∀ t r, parse_chars s = Some (t, r) → length r < length s.
Proof.
  induction s as [s IH] using (induction_ltof1 _ (@length N)). unfold ltof in IH.
  intros t r. destruct s as [|c s]; simpl; [done|].
  destruct (N.eqb c 34); [intros [= <- <-]; lia|].
  destruct (N.eqb c 92).
  - destruct s as [|e s1]; [done|].
    destruct (N.eqb e 117).
    + destruct s1 as [|h1 [|h2 [|h3 [|h4 s2]]]]; try done.
      destruct (hex_digit h1); simpl; [|done].
      destruct (hex_digit h2); simpl; [|done].
      destruct (hex_digit h3); simpl; [|done].
      destruct (hex_digit h4); simpl; [|done].
      destruct (parse_chars s2) as [[t' r']|] eqn:Hp; simpl; [|done].
      intros [= <- <-]. apply IH in Hp; simpl in *; lia.
    + destruct (unescape e); simpl; [|done].
      destruct (parse_chars s1) as [[t' r']|] eqn:Hp; simpl; [|done].
      intros [= <- <-]. apply IH in Hp; simpl in *; lia.
  - destruct (N.ltb c 32); [done|].
    destruct (parse_chars s) as [[t' r']|] eqn:Hp; simpl; [|done].
    intros [= <- <-]. apply IH in Hp; simpl in *; lia.
Qed.

Lemma parse_number_length s l r : parse_number s = Some (l, r) → length r ≤ length s.
Proof.
  unfold parse_number.
  destruct (number_sign s) as [sg s1] eqn:E1.
  assert (L1 : length s1 ≤ length s).
  { unfold number_sign in E1. destruct s as [|c s']; [by injection E1 as <- <-|].
    destruct (N.eqb c 45); injection E1 as <- <-; simpl; lia. }
  destruct (number_int s1) as [[i s2]|] eqn:E2; simpl; [|done].
  assert (L2 : length s2 ≤ length s1).
  { unfold number_int in E2. destruct s1 as [|c s']; [done|].
    destruct (N.eqb c 48); [injection E2 as <- <-; simpl; lia|].
    destruct (is_digit c) eqn:Hc; [|done]. injection E2 as E2.
    apply (digits_length (c :: s') i s2). exact E2. }
  destruct (number_frac s2) as [[f s3]|] eqn:E3; simpl; [|done].
  assert (L3 : length s3 ≤ length s2).
  { unfold number_frac in E3. destruct s2 as [|c s']; [by injection E3 as <- <-|].
    destruct (N.eqb c 46); [|by injection E3 as <- <-].
    destruct (digits s') as [d r'] eqn:Hd. apply digits_length in Hd.
    destruct d; [done|]. injection E3 as <- <-. simpl; lia. }
  destruct (number_exp s3) as [[e s4]|] eqn:E4; simpl; [|done].
  assert (L4 : length s4 ≤ length s3).
  { unfold number_exp in E4. destruct s3 as [|c s']; [by injection E4 as <- <-|].
    destruct (N.eqb c 101 || N.eqb c 69); [|by injection E4 as <- <-].
    destruct s' as [|c' s'']; simpl in E4.
    - done.
    - destruct (N.eqb c' 43 || N.eqb c' 45).
      + destruct (digits s'') as [d r'] eqn:Hd. apply digits_length in Hd.
        destruct d; [done|]. injection E4 as <- <-. simpl; lia.
      + destruct (digits (c' :: s'')) as [d r'] eqn:Hd. apply digits_length in Hd.
        destruct d; [done|]. injection E4 as <- <-. simpl in *; lia. }
  intros [= <- <-]. lia.
Qed.

(** The three parsers, one step unfolded. *)
Lemma parse_value_S f s :
  parse_value (S f) s =
    match skip_ws s with
    | [] => None
    | c :: r =>
        if N.eqb c 123 then
          match skip_ws r with
          | c' :: r' => if N.eqb c' 125 then Some (JObj [], r') else parse_members f r []
          | [] => None
          end
        else if N.eqb c 91 then
          match skip_ws r with
          | c' :: r' => if N.eqb c' 93 then Some (JArr [], r') else parse_elements f r []
          | [] => None
          end
        else if N.eqb c 34 then '(t, rest) ← parse_chars r; Some (JStr t, rest)
        else if N.eqb c 116 then rest ← strip (lit "rue") r; Some (JBool true, rest)
        else if N.eqb c 102 then rest ← strip (lit "alse") r; Some (JBool false, rest)
        else if N.eqb c 110 then rest ← strip (lit "ull") r; Some (JNull, rest)
        else '(l, rest) ← parse_number (c :: r); Some (JNum l, rest)
    end.
Proof. reflexivity. Qed.

Lemma parse_members_S f s acc :
  parse_members (S f) s acc =
    match skip_ws s with
    | c :: r =>
        if N.eqb c 34 then
          '(k, r1) ← parse_chars r;
          match skip_ws r1 with
          | c1 :: r2 =>
              if N.eqb c1 58 then
                '(v, r3) ← parse_value f r2;
                match skip_ws r3 with
                | c3 :: r4 =>
                    if N.eqb c3 44 then parse_members f r4 (define k v acc)
                    else if N.eqb c3 125 then Some (JObj (define k v acc), r4)
                    else None
                | [] => None
                end
              else None
          | [] => None
          end
        else None
    | [] => None
    end.
Proof. reflexivity. Qed.

Lemma parse_elements_S f s acc :
  parse_elements (S f) s acc =
    '(v, r1) ← parse_value f s;
    match skip_ws r1 with
    | c :: r2 =>
        if N.eqb c 44 then parse_elements f r2 (acc ++ [v])
        else if N.eqb c 93 then Some (JArr (acc ++ [v]), r2)
        else None
    | [] => None
    end.
Proof. reflexivity. Qed.

Local Arguments parse_value : simpl never.
Local Arguments parse_members : simpl never.
Local Arguments parse_elements : simpl never.

Lemma parse_length f :
  (∀ s v r, parse_value f s = Some (v, r) → length r ≤ length s) ∧
  (∀ s acc v r, parse_members f s acc = Some (v, r) → length r ≤ length s) ∧
  (∀ s acc v r, parse_elements f s acc = Some (v, r) → length r ≤ length s).
Proof.
  induction f as [|f (IHv & IHm & IHe)]; [by repeat split|].
  split; [|split].
  - intros s v r. rewrite parse_value_S.
    destruct (skip_ws s) as [|c r0] eqn:Hs; [done|]. apply skip_ws_cons in Hs.
    destruct (N.eqb c 123).
    { destruct (skip_ws r0) as [|c' r'] eqn:Hs'; [done|]. apply skip_ws_cons in Hs'.
      destruct (N.eqb c' 125); [intros [= <- <-]; lia|].
      intros Hm%IHm. lia. }
    destruct (N.eqb c 91).
    { destruct (skip_ws r0) as [|c' r'] eqn:Hs'; [done|]. apply skip_ws_cons in Hs'.
      destruct (N.eqb c' 93); [intros [= <- <-]; lia|].
      intros Hm%IHe. lia. }
    destruct (N.eqb c 34).
    { destruct (parse_chars r0) as [[t rest]|] eqn:Hp; simpl; [|done].
      intros [= <- <-]. apply parse_chars_length in Hp. lia. }
    destruct (N.eqb c 116).
    { destruct (strip (lit "rue") r0) eqn:Hst; simpl; [|done].
      intros [= <- <-]. apply strip_length in Hst. lia. }
    destruct (N.eqb c 102).
    { destruct (strip (lit "alse") r0) eqn:Hst; simpl; [|done].
      intros [= <- <-]. apply strip_length in Hst. lia. }
    destruct (N.eqb c 110).
    { destruct (strip (lit "ull") r0) eqn:Hst; simpl; [|done].
      intros [= <- <-]. apply strip_length in Hst. lia. }
    destruct (parse_number (c :: r0)) as [[l rest]|] eqn:Hn; simpl; [|done].
    intros [= <- <-]. apply parse_number_length in Hn. simpl in Hn. lia.
  - intros s acc v r. rewrite parse_members_S.
    destruct (skip_ws s) as [|c r0] eqn:Hs; [done|]. apply skip_ws_cons in Hs.
    destruct (N.eqb c 34); [|done].
    destruct (parse_chars r0) as [[k r1]|] eqn:Hp; simpl; [|done].
    apply parse_chars_length in Hp.
    destruct (skip_ws r1) as [|c1 r2] eqn:Hs1; [done|]. apply skip_ws_cons in Hs1.
    destruct (N.eqb c1 58); [|done].
    destruct (parse_value f r2) as [[v' r3]|] eqn:Hv; simpl; [|done].
    apply IHv in Hv.
    destruct (skip_ws r3) as [|c3 r4] eqn:Hs3; [done|]. apply skip_ws_cons in Hs3.
    destruct (N.eqb c3 44); [intros Hm%IHm; lia|].
    destruct (N.eqb c3 125); [|done]. intros [= <- <-]. lia.
  - intros s acc v r. rewrite parse_elements_S.
    destruct (parse_value f s) as [[v' r1]|] eqn:Hv; simpl; [|done].
    apply IHv in Hv.
    destruct (skip_ws r1) as [|c r2] eqn:Hs1; [done|]. apply skip_ws_cons in Hs1.
    destruct (N.eqb c 44); [intros Hm%IHe; lia|].
    destruct (N.eqb c 93); [|done]. intros [= <- <-]. lia.
Qed.

(** ** Fuel

    With fuel above twice the length of the text, one more unit of fuel does
    not change what a parser answers. *)
Lemma parse_fuel_S f :
  (∀ s, 2 * length s < f → parse_value f s = parse_value (S f) s) ∧
  (∀ s acc, 2 * length s + 1 < f → parse_members f s acc = parse_members (S f) s acc) ∧
  (∀ s acc, 2 * length s + 1 < f → parse_elements f s acc = parse_elements (S f) s acc).
Proof.
  induction f as [|f (IHv & IHm & IHe)]; [repeat split; intros; lia|].
  split; [|split].
  - intros s Hf. rewrite !parse_value_S.
    destruct (skip_ws s) as [|c r0] eqn:Hs; [done|]. apply skip_ws_cons in Hs.
    destruct (skip_ws r0) as [|c' r'] eqn:Hs'.
    + done.
    + rewrite (IHm r0 []) by lia. rewrite (IHe r0 []) by lia. done.
  - intros s acc Hf. rewrite !parse_members_S.
    destruct (skip_ws s) as [|c r0] eqn:Hs; [done|]. apply skip_ws_cons in Hs.
    destruct (N.eqb c 34); [|done].
    destruct (parse_chars r0) as [[k r1]|] eqn:Hp; simpl; [|done].
    apply parse_chars_length in Hp.
    destruct (skip_ws r1) as [|c1 r2] eqn:Hs1; [done|]. apply skip_ws_cons in Hs1.
    destruct (N.eqb c1 58); [|done].
    rewrite <- (IHv r2) by lia.
    destruct (parse_value f r2) as [[v' r3]|] eqn:Hv; simpl; [|done].
    apply (proj1 (parse_length f)) in Hv.
    destruct (skip_ws r3) as [|c3 r4] eqn:Hs3; [done|]. apply skip_ws_cons in Hs3.
    rewrite (IHm r4) by lia. done.
  - intros s acc Hf. rewrite !parse_elements_S.
    rewrite <- (IHv s) by lia.
    destruct (parse_value f s) as [[v' r1]|] eqn:Hv; simpl; [|done].
    apply (proj1 (parse_length f)) in Hv.
    destruct (skip_ws r1) as [|c r2] eqn:Hs1; [done|]. apply skip_ws_cons in Hs1.
    rewrite (IHe r2) by lia. done.
Qed.

(** [JSON_parse] gives its parser fuel enough: with any more, the answer is
    the same. *)
Lemma parse_value_fuel text n :
  parse_value (S (2 * length text) + n) text = parse_value (S (2 * length text)) text.
Proof.
  induction n as [|n IH]; [by rewrite Nat.add_0_r|].
  rewrite Nat.add_succ_r, <- IH.
  symmetry. apply (proj1 (parse_fuel_S _)). lia.
Qed.

(** ** Strings: [parse_chars] undoes [quote_chars] *)

Lemma hex_digit_char x : (x < 16)%N → hex_digit (hex_char x) = Some x.
Proof.
  intros Hx. rewrite <- (N2Nat.id x).
  assert (Hn : N.to_nat x < 16) by lia. revert Hn. generalize (N.to_nat x) as n.
  intros n Hn. do 16 (destruct n as [|n]; [reflexivity|]). lia.
Qed.

(** Four hexadecimal digits denote the code unit they were made from. *)
Lemma unicode_escape_value c :
  (c < 65536)%N →
  ((((c / 4096 mod 16) * 16 + c / 256 mod 16) * 16 + c / 16 mod 16) * 16 + c mod 16 = c)%N.
Proof.
  intros Hc.
  assert (H1 : (c / 256 = c / 16 / 16)%N) by (rewrite N.Div0.div_div; reflexivity).
  assert (H2 : (c / 4096 = c / 16 / 16 / 16)%N) by (rewrite !N.Div0.div_div; reflexivity).
  rewrite H1, H2.
  pose proof (N.div_mod c 16 ltac:(lia)) as E0.
  pose proof (N.div_mod (c / 16) 16 ltac:(lia)) as E1.
  pose proof (N.div_mod (c / 16 / 16) 16 ltac:(lia)) as E2.
  pose proof (N.mod_lt c 16 ltac:(lia)) as B0.
  pose proof (N.mod_lt (c / 16) 16 ltac:(lia)) as B1.
  pose proof (N.mod_lt (c / 16 / 16) 16 ltac:(lia)) as B2.
  assert (B3 : (c / 16 / 16 / 16 < 16)%N).
  { rewrite !N.Div0.div_div. apply N.Div0.div_lt_upper_bound. simpl. lia. }
  rewrite (N.mod_small _ _ B3). lia.
Qed.

Lemma parse_unicode_escape c tail t rest :
  (c < 65536)%N → parse_chars tail = Some (t, rest) →
  parse_chars (unicode_escape c ++ tail) = Some (c :: t, rest).
Proof.
  intros Hc Ht. unfold unicode_escape. simpl.
  rewrite !hex_digit_char by (apply N.mod_lt; lia). simpl.
  rewrite Ht. simpl. rewrite unicode_escape_value by done. done.
Qed.

Lemma parse_quote_unit c tail t rest :
  parse_chars tail = Some (t, rest) →
  parse_chars (quote_unit c ++ tail) = Some (c :: t, rest).
Proof.
  intros Ht. unfold quote_unit.
  destruct (N.eqb_spec c 8) as [->|?]; [simpl; by rewrite Ht|].
  destruct (N.eqb_spec c 9) as [->|?]; [simpl; by rewrite Ht|].
  destruct (N.eqb_spec c 10) as [->|?]; [simpl; by rewrite Ht|].
  destruct (N.eqb_spec c 12) as [->|?]; [simpl; by rewrite Ht|].
  destruct (N.eqb_spec c 13) as [->|?]; [simpl; by rewrite Ht|].
  destruct (N.eqb_spec c 34) as [->|?]; [simpl; by rewrite Ht|].
  destruct (N.eqb_spec c 92) as [->|?]; [simpl; by rewrite Ht|].
  destruct ((c <? 32)%N || is_high_surrogate c || is_low_surrogate c) eqn:He.
  - apply parse_unicode_escape; [|done].
    unfold is_high_surrogate, is_low_surrogate in He.
    destruct (N.ltb_spec c 32); [lia|]. simpl in He.
    apply orb_true_iff in He as [He|He]; apply andb_true_iff in He as [_ He];
      apply N.leb_le in He; lia.
  - apply orb_false_iff in He as [He _]. apply orb_false_iff in He as [He _].
    simpl. destruct (N.eqb_spec c 34); [done|]. destruct (N.eqb_spec c 92); [done|].
    rewrite He, Ht. done.
Qed.

Lemma quote_chars_cons2 c d r :
  quote_chars (c :: d :: r) =
    if is_high_surrogate c && is_low_surrogate d
    then c :: d :: quote_chars r
    else quote_unit c ++ quote_chars (d :: r).
Proof. reflexivity. Qed.

Lemma parse_quote_chars s : ∀ rest,
  parse_chars (quote_chars s ++ 34%N :: rest) = Some (s, rest).
Proof.
  induction s as [s IH] using (induction_ltof1 _ (@length N)). unfold ltof in IH.
  intros rest. destruct s as [|c [|d r]].
  - reflexivity.
  - simpl. apply parse_quote_unit. reflexivity.
  - rewrite quote_chars_cons2.
    destruct (is_high_surrogate c && is_low_surrogate d) eqn:Hp.
    + apply andb_true_iff in Hp as [Hc Hd].
      unfold is_high_surrogate in Hc. unfold is_low_surrogate in Hd.
      apply andb_true_iff in Hc as [Hc _]. apply andb_true_iff in Hd as [Hd _].
      apply N.leb_le in Hc, Hd.
      cbn [app parse_chars].
      destruct (N.eqb_spec c 34); [lia|]. destruct (N.eqb_spec c 92); [lia|].
      destruct (N.ltb_spec c 32); [lia|].
      destruct (N.eqb_spec d 34); [lia|]. destruct (N.eqb_spec d 92); [lia|].
      destruct (N.ltb_spec d 32); [lia|].
      rewrite IH by (simpl; lia). done.
    + rewrite <- app_assoc. apply parse_quote_unit. apply IH. simpl; lia.
Qed.

Lemma parse_quote s rest : parse_chars (quote_chars s ++ [34%N] ++ rest) = Some (s, rest).
Proof. apply parse_quote_chars. Qed.

(** ** Objects: defining the properties of an ordered object in turn gives
    the object back *)

Lemma has_own_spec k props : has_own k props = true ↔ k ∈ props.*1.
Proof. unfold has_own. apply bool_decide_eq_true. Qed.

Lemma own_Some_elem k props v : own k props = Some v → k ∈ props.*1.
Proof.
  induction props as [|[k' v'] ps IH]; simpl; [done|].
  rewrite elem_of_cons. case_bool_decide as Hk; [subst; tauto|].
  intros Hv%IH. tauto.
Qed.

Lemma own_None k props : own k props = None ↔ k ∉ props.*1.
Proof.
  induction props as [|[k' v'] ps IH]; simpl.
  - split; [intros _; apply not_elem_of_nil|done].
  - rewrite not_elem_of_cons. case_bool_decide as Hk; [subst; split; [done|tauto]|].
    rewrite IH. split; [intros ?; split; [congruence|done]|tauto].
Qed.

Lemma redefine_keys k v props : (redefine k v props).*1 = props.*1.
Proof.
  induction props as [|[k' v'] ps IH]; simpl; [done|].
  case_bool_decide as Hk; simpl; [by subst|]. f_equal. exact IH.
Qed.

Lemma own_redefine k v props k' :
  k ∈ props.*1 →
  own k' (redefine k v props) = if bool_decide (k = k') then Some v else own k' props.
Proof.
  induction props as [|[k0 v0] ps IH]; simpl; [by intros ?%elem_of_nil|].
  intros Hin. destruct (decide (k0 = k)) as [->|Hne].
  - rewrite (bool_decide_eq_true_2 (k = k)) by done. simpl.
    destruct (decide (k = k')) as [->|Hne'].
    + by rewrite !bool_decide_eq_true_2.
    + by rewrite !bool_decide_eq_false_2.
  - rewrite (bool_decide_eq_false_2 (k0 = k)) by done. simpl.
    apply elem_of_cons in Hin as [?|Hin]; [congruence|].
    rewrite (IH Hin).
    destruct (decide (k0 = k')) as [->|Hne'].
    + rewrite bool_decide_eq_true_2 by done. by rewrite bool_decide_eq_false_2 by congruence.
    + by rewrite (bool_decide_eq_false_2 (k0 = k')).
Qed.

Lemma own_cons_new k v props k' :
  own k' ((k, v) :: props) = if bool_decide (k = k') then Some v else own k' props.
Proof. reflexivity. Qed.

Lemma own_add_index n k v props k' :
  k ∉ props.*1 →
  own k' (add_index n k v props) = if bool_decide (k = k') then Some v else own k' props.
Proof.
  induction props as [|[k0 v0] ps IH]; [done|].
  intros [Hk0 Hk]%not_elem_of_cons. simpl in Hk0.
  cbn [add_index].
  destruct (array_index k0) as [n0|]; [destruct (N.leb n0 n)|]; try apply own_cons_new.
  rewrite (own_cons_new k0 v0 (add_index n k v ps)), (IH Hk), (own_cons_new k0 v0 ps).
  destruct (decide (k0 = k')) as [->|Hne'].
  - rewrite (bool_decide_eq_true_2 (k' = k')) by done.
    by rewrite (bool_decide_eq_false_2 (k = k')).
  - rewrite (bool_decide_eq_false_2 (k0 = k')) by done. done.
Qed.

Lemma own_app k props1 props2 :
  own k (props1 ++ props2) = match own k props1 with Some v => Some v | None => own k props2 end.
Proof.
  induction props1 as [|[k0 v0] ps IH]; simpl; [done|]. by case_bool_decide.
Qed.

(** Reading a property after defining one. *)
Lemma own_define k v props k' :
  own k' (define k v props) = if bool_decide (k = k') then Some v else own k' props.
Proof.
  unfold define. destruct (has_own k props) eqn:Hown.
  - apply own_redefine. by apply has_own_spec.
  - assert (Hk : own k props = None).
    { apply own_None. intros Hin%has_own_spec. congruence. }
    destruct (array_index k); [by apply own_add_index, own_None|].
    rewrite own_app. simpl. case_bool_decide; [subst; by rewrite Hk|].
    by destruct (own k' props).
Qed.

Lemma add_index_keys n k v props x :
  x ∈ (add_index n k v props).*1 ↔ x = k ∨ x ∈ props.*1.
Proof.
  induction props as [|[k0 v0] ps IH]; simpl.
  - rewrite list_elem_of_singleton, elem_of_nil. tauto.
  - destruct (array_index k0) as [n0|]; [destruct (N.leb n0 n)|]; simpl;
      rewrite ?elem_of_cons, ?IH; simpl; tauto.
Qed.

Lemma js_ordered_snoc ks k :
  js_ordered ks → k ∉ ks → array_index k = None → js_ordered (ks ++ [k]).
Proof.
  induction ks as [|k0 ks IH]; simpl.
  - intros _ _ ->. split; [apply not_elem_of_nil|]. split; [done|]. constructor.
  - intros (Hn & Ho & Hf) Hk Hi. apply not_elem_of_cons in Hk as [Hk0 Hk].
    split; [|split].
    + rewrite elem_of_app, list_elem_of_singleton. intros [?|?]; [done|congruence].
    + by apply IH.
    + destruct (array_index k0); apply Forall_app; split; try done;
        constructor; [by rewrite Hi|constructor|done|constructor].
Qed.

Lemma js_ordered_add_index n k v props :
  js_ordered props.*1 → k ∉ props.*1 → array_index k = Some n →
  js_ordered (add_index n k v props).*1.
Proof.
  induction props as [|[k0 v0] ps IH]; simpl.
  - intros _ _ ->. split; [apply not_elem_of_nil|]. split; [done|]. constructor.
  - intros (Hn & Ho & Hf) Hk Hi. apply not_elem_of_cons in Hk as [Hk0 Hk].
    destruct (array_index k0) as [n0|] eqn:H0.
    + destruct (N.leb_spec n0 n) as [Hle|Hlt]; simpl.
      * split; [|split].
        -- rewrite add_index_keys. intros [?|?]; [congruence|done].
        -- by apply IH.
        -- rewrite H0. apply Forall_forall. intros x Hx%add_index_keys.
           destruct Hx as [->|Hx]; [by rewrite Hi|].
           rewrite Forall_forall in Hf. by apply Hf.
      * split; [|split].
        -- rewrite elem_of_cons. intros [?|?]; [congruence|done].
        -- simpl. rewrite H0. done.
        -- rewrite Hi. constructor; [rewrite H0; lia|].
           eapply Forall_impl; [exact Hf|]. intros x. simpl.
           destruct (array_index x); [lia|done].
    + simpl. split; [|split].
      * rewrite elem_of_cons. intros [?|?]; [congruence|done].
      * simpl. rewrite H0. done.
      * rewrite Hi. constructor; [by rewrite H0|].
        eapply Forall_impl; [exact Hf|]. intros x. simpl. by intros ->.
Qed.

(** An ordered object stays ordered when a property is defined. *)
Lemma js_ordered_define k v props :
  js_ordered props.*1 → js_ordered (define k v props).*1.
Proof.
  intros Ho. unfold define. destruct (has_own k props) eqn:Hown.
  - by rewrite redefine_keys.
  - assert (Hk : k ∉ props.*1) by (intros Hin%has_own_spec; congruence).
    destruct (array_index k) eqn:Hi.
    + by apply js_ordered_add_index.
    + rewrite fmap_app. simpl. by apply js_ordered_snoc.
Qed.

(** Defining a property that comes last in order appends it. *)
Lemma define_last acc k v ks :
  js_ordered (acc.*1 ++ k :: ks) → define k v acc = acc ++ [(k, v)].
Proof.
  intros Ho.
  assert (Hk : (k ∉ acc.*1) ∧
               match array_index k with
               | Some n => Forall (λ p, ∃ n', array_index p.1 = Some n' ∧ (n' ≤ n)%N) acc
               | None => True
               end).
  { clear v. induction acc as [|[k0 v0] acc IH]; simpl in *.
    - split; [apply not_elem_of_nil|]. by destruct (array_index k).
    - destruct Ho as (Hn & Ho & Hf). destruct (IH Ho) as [IH1 IH2].
      split.
      + rewrite not_elem_of_cons. split; [|done].
        intros ->. apply Hn. rewrite elem_of_app, elem_of_cons. tauto.
      + destruct (array_index k) as [n|] eqn:Hi; [|done].
        constructor; [|done]. simpl.
        destruct (array_index k0) as [n0|].
        * rewrite Forall_app, Forall_cons in Hf. destruct Hf as (_ & Hf & _).
          rewrite Hi in Hf. eauto.
        * rewrite Forall_app, Forall_cons in Hf. destruct Hf as (_ & Hf & _).
          congruence. }
  destruct Hk as [Hk Hidx]. unfold define.
  assert (Hown : has_own k acc = false).
  { destruct (has_own k acc) eqn:E; [|done]. by apply has_own_spec in E. }
  rewrite Hown. destruct (array_index k) as [n|]; [|done].
  clear Ho Hk Hown. induction acc as [|[k0 v0] acc IH]; simpl; [done|].
  apply Forall_cons in Hidx as [(n' & Hn' & Hle) Hidx]. simpl in Hn'.
  rewrite Hn'. apply N.leb_le in Hle. rewrite Hle. by rewrite IH.
Qed.

Lemma define_all acc props :
  js_ordered (acc ++ props).*1 →
  fold_left (λ a p, define p.1 p.2 a) props acc = acc ++ props.
Proof.
  revert acc. induction props as [|[k v] ps IH]; intros acc Ho; simpl.
  - by rewrite app_nil_r.
  - rewrite fmap_app in Ho. simpl in Ho.
    rewrite (define_last acc k v ps.*1 Ho).
    rewrite IH; [by rewrite <- app_assoc|].
    by rewrite <- app_assoc, fmap_app.
Qed.

(** ** Values: [JSON.parse] undoes [JSON.stringify] *)

(** Induction on a value, with its items or properties already done. *)
Lemma json_ind (P : json → Prop) :
  P JNull → (∀ b, P (JBool b)) → (∀ l, P (JNum l)) → (∀ s, P (JStr s)) →
  (∀ items, Forall P items → P (JArr items)) →
  (∀ props, Forall (λ p, P p.2) props → P (JObj props)) →
  ∀ v, P v.
Proof.
  intros Hnull Hbool Hnum Hstr Harr Hobj.
  fix IH 1. intros [|b|l|s|items|props].
  - exact Hnull.
  - apply Hbool.
  - apply Hnum.
  - apply Hstr.
  - apply Harr. induction items as [|x items IHitems]; constructor; [apply IH|exact IHitems].
  - apply Hobj. induction props as [|[k x] props IHprops]; constructor;
      [apply IH|exact IHprops].
Qed.

Lemma storable_arr items : storable (JArr items) ↔ Forall storable items.
Proof.
  simpl. induction items as [|x items IH]; [by split; [constructor|]|].
  rewrite Forall_cons, IH. done.
Qed.

Lemma storable_obj props :
  storable (JObj props) ↔ js_ordered props.*1 ∧ Forall (λ p, storable p.2) props.
Proof.
  simpl. apply and_iff_compat_l.
  induction props as [|x props IH]; [by split; [constructor|]|].
  rewrite Forall_cons, IH. done.
Qed.

Lemma skip_ws_head c s : is_ws c = false → skip_ws (c :: s) = c :: s.
Proof. intros Hc. simpl. by rewrite Hc. Qed.

Section WithHost.
Context `{Host}.

Lemma stringify_arr items :
  JSON_stringify (JArr items) = [91%N] ++ commas (map JSON_stringify items) ++ [93%N].
Proof. reflexivity. Qed.

Lemma stringify_obj props :
  JSON_stringify (JObj props) = [123%N] ++ commas (map member props) ++ [125%N].
Proof. reflexivity. Qed.

(** A value that is not a number starts with a character that tells its
    kind. *)
Lemma stringify_head v :
  storable v →
  ∃ c t, JSON_stringify v = c :: t ∧ is_ws c = false ∧ c ≠ 93%N ∧ c ≠ 125%N.
Proof.
  destruct v as [|[]|l|s|items|props]; try done; intros _;
    (eexists _, _; split; [reflexivity|done]).
Qed.

Lemma commas_cons2 (x y : jsstring) l :
  commas (x :: y :: l) = x ++ [44%N] ++ commas (y :: l).
Proof. reflexivity. Qed.

Lemma parse_stringify v :
  storable v → ∀ f rest,
  2 * length (JSON_stringify v) < f →
  parse_value f (JSON_stringify v ++ rest) = Some (v, rest).
Proof.
  induction v as [|b|l|s|items IH|props IH] using json_ind; intros Hv f rest Hf.
  - destruct f as [|f]; [simpl in Hf; lia|]. reflexivity.
  - destruct f as [|f]; [simpl in Hf; lia|]. by destruct b.
  - done.
  - destruct f as [|f]; [simpl in Hf; lia|].
    rewrite parse_value_S. unfold JSON_stringify, quote.
    cbn [app]. rewrite skip_ws_head by done. cbn [N.eqb Pos.eqb].
    rewrite <- app_assoc, parse_quote. done.
  - (* arrays *)
    apply storable_arr in Hv. rewrite stringify_arr in *.
    destruct f as [|f]; [lia|].
    rewrite parse_value_S. cbn [app]. rewrite skip_ws_head by done. cbn [N.eqb Pos.eqb].
    destruct items as [|x items]; [reflexivity|].
    assert (Hel : ∀ items, Forall storable items → items ≠ [] →
              Forall (λ v, storable v → ∀ f rest, 2 * length (JSON_stringify v) < f →
                           parse_value f (JSON_stringify v ++ rest) = Some (v, rest)) items →
              ∀ f acc rest, 2 * length (commas (map JSON_stringify items)) + 1 < f →
              parse_elements f (commas (map JSON_stringify items) ++ 93%N :: rest) acc
              = Some (JArr (acc ++ items), rest)).
    { clear. intros items. induction items as [|x items IHitems]; [done|].
      intros [Hx Hitems]%Forall_cons _ [IHx IH]%Forall_cons f acc rest Hf.
      destruct f as [|f]; [lia|]. rewrite parse_elements_S.
      destruct items as [|y items].
      - cbn [map commas] in *. rewrite (IHx Hx) by lia. simpl. done.
      - cbn [map] in *. rewrite commas_cons2 in *.
        rewrite <- !app_assoc. rewrite !length_app in Hf. cbn [length] in Hf.
        rewrite (IHx Hx) by lia. simpl.
        rewrite (IHitems Hitems ltac:(done) IH) by (cbn [map]; lia).
        by rewrite <- app_assoc. }
    destruct (stringify_head x) as (c & t & Hc & Hws & Hc93 & _).
    { by apply Forall_cons in Hv as [? _]. }
    assert (Hstart : ∃ t', commas (map JSON_stringify (x :: items)) ++ 93%N :: rest = c :: t').
    { destruct items; cbn [map]; [cbn [commas]|rewrite commas_cons2]; rewrite Hc;
        eexists; reflexivity. }
    destruct Hstart as [t' Hstart].
    rewrite <- app_assoc. change ([93%N] ++ rest) with (93%N :: rest).
    rewrite Hstart at 1. rewrite skip_ws_head by done.
    rewrite (proj2 (N.eqb_neq c 93)) by done.
    rewrite !length_app in Hf. cbn [length] in Hf.
    rewrite (Hel (x :: items) Hv ltac:(done) IH) by lia. done.
  - (* objects *)
    apply storable_obj in Hv as [Ho Hv]. rewrite stringify_obj in *.
    destruct f as [|f]; [lia|].
    rewrite parse_value_S. cbn [app]. rewrite skip_ws_head by done. cbn [N.eqb Pos.eqb].
    destruct props as [|p props]; [reflexivity|].
    assert (Hm : ∀ props, Forall (λ p, storable p.2) props → props ≠ [] →
              Forall (λ p, storable p.2 → ∀ f rest, 2 * length (JSON_stringify p.2) < f →
                           parse_value f (JSON_stringify p.2 ++ rest) = Some (p.2, rest)) props →
              ∀ f acc rest, 2 * length (commas (map member props)) + 1 < f →
              parse_members f (commas (map member props) ++ 125%N :: rest) acc
              = Some (JObj (fold_left (λ a p, define p.1 p.2 a) props acc), rest)).
    { clear. intros props. induction props as [|[k x] props IHprops]; [done|].
      intros [Hx Hprops]%Forall_cons _ [IHx IH]%Forall_cons f acc rest Hf.
      simpl in Hx, IHx.
      destruct f as [|f]; [lia|]. rewrite parse_members_S.
      destruct props as [|q props].
      - cbn [map commas] in *. unfold member, quote in *. cbn [fst snd] in *.
        rewrite <- !app_assoc. cbn [app]. rewrite skip_ws_head by done. cbn [N.eqb Pos.eqb].
        rewrite parse_quote_chars. simpl.
        rewrite !length_app in Hf. cbn [length] in Hf.
        rewrite (IHx Hx) by lia. simpl. done.
      - cbn [map] in *. rewrite commas_cons2 in *.
        unfold member at 1, quote. unfold member at 1 in Hf. unfold quote in Hf.
        cbn [fst snd] in *.
        rewrite <- !app_assoc. cbn [app]. rewrite skip_ws_head by done. cbn [N.eqb Pos.eqb].
        rewrite parse_quote_chars. simpl.
        rewrite !length_app in Hf. cbn [length] in Hf.
        rewrite (IHx Hx) by lia. simpl.
        rewrite (IHprops Hprops ltac:(done) IH) by (cbn [map]; lia).
        done. }
    assert (Hstart : ∃ t', commas (map member (p :: props)) ++ 125%N :: rest = 34%N :: t').
    { destruct props; cbn [map]; [cbn [commas]|rewrite commas_cons2];
        unfold member at 1, quote; eexists; reflexivity. }
    destruct Hstart as [t' Hstart].
    rewrite <- app_assoc. change ([125%N] ++ rest) with (125%N :: rest).
    rewrite Hstart at 1. rewrite skip_ws_head by done.
    cbn [N.eqb Pos.eqb].
    rewrite !length_app in Hf. cbn [length] in Hf.
    rewrite (Hm (p :: props) Hv ltac:(done) IH) by lia.
    rewrite (define_all [] (p :: props)) by done. done.
Qed.

(** What [JSON.stringify] wrote, [JSON.parse] reads back. *)
Lemma JSON_parse_stringify v : storable v → JSON_parse (JSON_stringify v) = Normal v.
Proof.
  intros Hv. unfold JSON_parse.
  rewrite <- (app_nil_r (JSON_stringify v)) at 2.
  rewrite parse_stringify by (done || lia). done.
Qed.

End WithHost.

(** ** [trim] *)

Lemma trim_start_blank s : blank s = true → trim_start s = [].
Proof.
  induction s as [|c s IH]; simpl; [done|].
  intros [Hc Hs]%andb_true_iff. rewrite Hc. auto.
Qed.

Lemma trim_start_nil s : trim_start s = [] → blank s = true.
Proof.
  induction s as [|c s IH]; simpl; [done|].
  destruct (is_white_space c); simpl; [done|discriminate].
Qed.

Lemma trim_start_app_blank pre s : blank pre = true → trim_start (pre ++ s) = trim_start s.
Proof.
  induction pre as [|c pre IH]; simpl; [done|].
  intros [Hc Hs]%andb_true_iff. rewrite Hc. auto.
Qed.

Lemma trim_start_app s post : trim_start s ≠ [] → trim_start (s ++ post) = trim_start s ++ post.
Proof.
  induction s as [|c s IH]; simpl; [done|].
  destruct (is_white_space c); [exact IH|done].
Qed.

Lemma blank_reverse s : blank (reverse s) = blank s.
Proof.
  unfold blank. induction s as [|c s IH]; [done|].
  rewrite reverse_cons, forallb_app, IH. simpl. rewrite andb_true_r. apply andb_comm.
Qed.

Lemma trim_end_app_blank s post : blank post = true → trim_end (s ++ post) = trim_end s.
Proof.
  intros Hp. unfold trim_end. rewrite reverse_app, trim_start_app_blank; [done|].
  by rewrite blank_reverse.
Qed.

Lemma trim_blank s : blank s = true → trim s = [].
Proof. intros Hs. unfold trim. by rewrite trim_start_blank. Qed.

(** White space around a string does not change what [trim] gives. *)
Lemma trim_surrounding pre s post :
  blank pre = true → blank post = true → trim (pre ++ s ++ post) = trim s.
Proof.
  intros Hpre Hpost. unfold trim. rewrite trim_start_app_blank by done.
  destruct (trim_start s) as [|c r] eqn:Hs.
  - apply trim_start_nil in Hs.
    rewrite trim_start_app_blank, (trim_start_blank post) by done. done.
  - rewrite trim_start_app, Hs by (by rewrite Hs). by apply trim_end_app_blank.
Qed.

End JSFacts.

(** * Properties of the session gate *)

Module AuthFacts.
Import JS Auth.

Section WithHost.
Context `{Host}.

Lemma strict_eq_inherited v k s : strict_eq_string (inherited v k) s = false.
Proof. unfold inherited. destruct (inherits v k); reflexivity. Qed.

(** Only an object can have a [password] that is a string. *)
Lemma password_of_non_object j s :
  (∀ r, j ≠ JObj r) → j ≠ JNull →
  ∃ v, js_get (VJson j) (lit "password") = Normal v ∧ strict_eq_string v s = false.
Proof.
  intros Hobj Hnull.
  destruct j as [|b|l|t|items|r]; simpl; try done;
    try (eexists; split; [reflexivity|apply strict_eq_inherited]).
  by destruct (Hobj r).
Qed.

(** [checkUser] on a mapping that was read. *)
Lemma checkUser_mapping st users email password :
  load_users st = Normal (JObj users) →
  ∃ b, checkUser email password st = Normal b ∧
       (b = true ↔ ∃ r, own email users = Some (JObj r) ∧
                        own (lit "password") r = Some (JStr password)).
Proof.
  intros Hload. unfold checkUser. rewrite Hload. simpl.
  destruct (own email users) as [x|] eqn:Hx.
  - destruct (truthy (VJson x)) eqn:Ht.
    + destruct x as [|b|l|t|items|r].
      * discriminate Ht.
      * destruct (password_of_non_object (JBool b) password) as (v & -> & Hv); try done.
        simpl. exists false. split; [by rewrite Hv|]. split; [done|intros (? & ? & _); done].
      * destruct (password_of_non_object (JNum l) password) as (v & -> & Hv); try done.
        simpl. exists false. split; [by rewrite Hv|]. split; [done|intros (? & ? & _); done].
      * destruct (password_of_non_object (JStr t) password) as (v & -> & Hv); try done.
        simpl. exists false. split; [by rewrite Hv|]. split; [done|intros (? & ? & _); done].
      * destruct (password_of_non_object (JArr items) password) as (v & -> & Hv); try done.
        simpl. exists false. split; [by rewrite Hv|]. split; [done|intros (? & ? & _); done].
      * simpl. destruct (own (lit "password") r) as [y|] eqn:Hy.
        -- simpl. eexists. split; [reflexivity|].
           destruct y as [|b|l|t|items|r']; simpl;
             try (split; [done|intros (r0 & [= <-] & Hr0); rewrite Hy in Hr0; done]).
           rewrite bool_decide_eq_true. split.
           ++ intros ->. eauto.
           ++ intros (r0 & [= <-] & Hr0). rewrite Hy in Hr0. by injection Hr0.
        -- simpl. rewrite strict_eq_inherited. exists false. split; [done|].
           split; [done|]. intros (r0 & [= <-] & Hr0). rewrite Hy in Hr0. done.
    + exists false. split; [done|]. split; [done|].
      intros (r & [= ->] & _). discriminate Ht.
  - unfold inherited. exists false.
    split; [|split; [done|intros (? & ? & _); done]].
    destruct (inherits _ _); simpl; [|done].
    unfold inherited. destruct (inherits _ _); done.
Qed.

(** [checkUser] in terms of the password the mapping holds. *)
Lemma checkUser_password st users email password :
  load_users st = Normal (JObj users) →
  checkUser email password st = Normal (bool_decide (password_of users email = Some password)).
Proof.
  intros Hload.
  destruct (checkUser_mapping st users email password Hload) as (b & -> & Hb).
  f_equal. unfold password_of. destruct b.
  - destruct (proj1 Hb eq_refl) as (r & -> & ->). by rewrite bool_decide_eq_true_2.
  - rewrite bool_decide_eq_false_2; [done|]. intros Hp.
    assert (false = true); [|done]. apply Hb.
    destruct (own email users) as [[|?|?|?|?|r]|]; try done.
    destruct (own (lit "password") r) as [[|?|?|p0|?|?]|] eqn:Hr; try done.
    injection Hp as ->. eauto.
Qed.

Lemma record_storable e pw : storable (JObj (record e pw)).
Proof.
  apply JSFacts.storable_obj. split.
  - simpl. repeat split; try (repeat constructor; done).
    + rewrite list_elem_of_singleton. done.
    + apply not_elem_of_nil.
  - repeat constructor.
Qed.

Lemma credentials_storable m : credentials m → storable (JObj m).
Proof.
  intros [Ho Hr]. apply JSFacts.storable_obj. split; [done|].
  eapply Forall_impl; [exact Hr|]. intros p (e & pw & ->). apply record_storable.
Qed.

Lemma credentials_define m e pw :
  credentials m → credentials (define e (JObj (record e pw)) m).
Proof.
  intros [Ho Hr]. split; [by apply JSFacts.js_ordered_define|].
  unfold define. destruct (has_own e m).
  - clear Ho. induction Hr as [|[k v] m Hp Hm IH]; simpl; [constructor|].
    case_bool_decide; constructor; simpl; eauto.
  - assert (Hnew : (λ p : jsstring * json, ∃ e0 pw0, p.2 = JObj (record e0 pw0))
                     (e, JObj (record e pw))) by (simpl; eauto).
    destruct (array_index e) as [n|].
    + clear Ho. induction Hr as [|[k v] m Hp Hm IH]; simpl; [by repeat constructor|].
      destruct (array_index k) as [n'|]; [destruct (N.leb n' n)|];
        repeat constructor; try done.
    + apply Forall_app. split; [done|]. by repeat constructor.
Qed.

(** What is stored is read back. *)
Lemma load_stored st m : stored st m → load_users st = Normal (JObj m).
Proof.
  intros [Hc [Hst|[Hst ->]]]; unfold load_users; rewrite Hst.
  - rewrite JSFacts.stringify_obj. simpl.
    rewrite <- (JSFacts.JSON_parse_stringify (JObj m)) by by apply credentials_storable.
    done.
  - reflexivity.
Qed.

Lemma password_of_define m e pw e' :
  password_of (define e (JObj (record e pw)) m) e' =
    if bool_decide (e = e') then Some pw else password_of m e'.
Proof.
  unfold password_of. rewrite JSFacts.own_define. by case_bool_decide.
Qed.

(** One signup: last write wins, and the other emails are untouched. *)
Lemma saveUser_stored st m email password :
  stored st m → email ≠ lit "__proto__" ∨ email ∈ m.*1 →
  ∃ st', saveUser email password st = Normal st' ∧
         stored st' (define email (JObj (record email password)) m) ∧
         ∀ e p, checkUser e p st' =
                  Normal (bool_decide ((if bool_decide (email = e) then Some password
                                        else password_of m e) = Some p)).
Proof.
  intros Hst Hemail. pose proof (load_stored st m Hst) as Hload.
  unfold saveUser. rewrite Hload. simpl.
  assert (Hguard : bool_decide (email = lit "__proto__") && negb (has_own email m) = false).
  { destruct Hemail as [Hne|Hin].
    - by rewrite bool_decide_eq_false_2.
    - apply JSFacts.has_own_spec in Hin. rewrite Hin. apply andb_false_r. }
  rewrite Hguard. simpl.
  exists (<["users"%string :=
            JSON_stringify (JObj (define email (JObj (record email password)) m))]> st).
  split; [reflexivity|].
  assert (Hst' : stored (<["users"%string :=
                    JSON_stringify (JObj (define email (JObj (record email password)) m))]> st)
                   (define email (JObj (record email password)) m)).
  { split; [apply credentials_define; apply Hst|]. left. apply lookup_insert_eq. }
  split; [exact Hst'|].
  intros e p. rewrite (checkUser_password _ _ e p (load_stored _ _ Hst')).
  by rewrite password_of_define.
Qed.
(** Registering an email leaves the others as they were. *)
Lemma saveUser_other st m email password st' e p :
  stored st m → email ≠ lit "__proto__" ∨ email ∈ m.*1 →
  saveUser email password st = Normal st' → e ≠ email →
  checkUser e p st' = checkUser e p st.
Proof.
  intros Hst Hemail Hsave Hne.
  destruct (saveUser_stored st m email password Hst Hemail) as (st1 & Hsave1 & _ & Hc).
  rewrite Hsave in Hsave1. injection Hsave1 as <-.
  rewrite Hc, (checkUser_password _ _ e p (load_stored _ _ Hst)).
  rewrite (bool_decide_eq_false_2 (email = e)); [done|]. intros ->. done.
Qed.

Lemma saveUsers_stored regs : ∀ st m,
  stored st m → Forall (λ r, r.1 ≠ lit "__proto__") regs →
  ∃ st' m', saveUsers regs st = Normal st' ∧ stored st' m' ∧
    ∀ e, password_of m' e = match last_password regs e with
                            | Some p => Some p
                            | None => password_of m e
                            end.
Proof.
  induction regs as [|[e0 p0] regs IH]; intros st m Hst Hregs; simpl.
  - exists st, m. done.
  - apply Forall_cons in Hregs as [He0 Hregs]. simpl in He0.
    destruct (saveUser_stored st m e0 p0 Hst (or_introl He0)) as (st1 & -> & Hst1 & _).
    simpl. destruct (IH _ _ Hst1 Hregs) as (st' & m' & -> & Hst' & Hp).
    exists st', m'. split; [done|]. split; [done|].
    intros e. rewrite Hp, password_of_define.
    destruct (last_password regs e); [done|].
    by destruct (bool_decide (e0 = e)).
Qed.

(** For every run of signups in a fresh browser with no email [__proto__]:
    every signup succeeds, and afterwards [checkUser e p] is true exactly when
    [p] is the password [e] was last registered with. *)
Theorem last_write_wins regs :
  Forall (λ r, r.1 ≠ lit "__proto__") regs →
  ∃ st, saveUsers regs ∅ = Normal st ∧
        ∀ e p, checkUser e p st = Normal (bool_decide (last_password regs e = Some p)).
Proof.
  intros Hregs.
  assert (H0 : stored ∅ []).
  { split; [split; [done|constructor]|]. right. split; [apply lookup_empty|done]. }
  destruct (saveUsers_stored regs ∅ [] H0 Hregs) as (st & m & Hs & Hst & Hp).
  exists st. split; [done|]. intros e p.
  rewrite (checkUser_password _ _ e p (load_stored _ _ Hst)), Hp.
  by destruct (last_password regs e).
Qed.

(** Text that is not JSON makes both functions throw. *)
Lemma corrupt_users_throws st text email password :
  JSON_parse text = Thrown SyntaxError → text ≠ [] →
  saveUser email password (<["users"%string := text]> st) = Thrown SyntaxError ∧
  checkUser email password (<["users"%string := text]> st) = Thrown SyntaxError.
Proof.
  intros Hp Hne. unfold saveUser, checkUser, load_users.
  rewrite lookup_insert_eq. destruct text as [|c text]; [done|]. simpl.
  rewrite Hp. done.
Qed.

End WithHost.

(** ** The session gate at work *)

(** Signup and login in a fresh browser. *)
Example signup_then_login :
  ∃ st, saveUser (H := example_host) (lit "a@x.com") (lit "pw1") ∅ = Normal st ∧
        st = one_user ∧
        checkUser (H := example_host) (lit "a@x.com") (lit "pw1") st = Normal true ∧
        checkUser (H := example_host) (lit "a@x.com") (lit "wrong") st = Normal false ∧
        checkUser (H := example_host) (lit "b@x.com") (lit "pw1") st = Normal false ∧
        requireAuth (setAuthed (lit "a@x.com") st) = None ∧
        requireAuth st = Some (lit "login.html").
Proof. eexists. repeat split; reflexivity. Qed.

(** A stored mapping that is [null] makes both functions throw as well. *)
Example null_users_throws :
  saveUser (H := example_host) (lit "a@x.com") (lit "pw1") {["users"%string := lit "null"]}
    = Thrown TypeError ∧
  checkUser (H := example_host) (lit "a@x.com") (lit "pw1") {["users"%string := lit "null"]}
    = Thrown TypeError.
Proof. split; reflexivity. Qed.

(** ** The claims on the session gate *)

(** C2.  For every stored credential mapping, email and password,
    [checkUser] returns, and it returns true exactly when the mapping has a
    record for the email whose [password] is the supplied password. *)
Theorem C2_checkUser_iff (H : Host) st users email password :
  load_users st = Normal (JObj users) →
  ∃ b, checkUser email password st = Normal b ∧
       (b = true ↔ ∃ r, own email users = Some (JObj r) ∧
                        own (lit "password") r = Some (JStr password)).
Proof. apply checkUser_mapping. Qed.

Lemma C2_checkUser_iff_witness :
  ∃ b, checkUser (H := example_host) (lit "a@x.com") (lit "pw1") one_user = Normal b.
Proof.
  destruct (C2_checkUser_iff example_host one_user
              [(lit "a@x.com", JObj [(lit "email", JStr (lit "a@x.com"));
                                     (lit "password", JStr (lit "pw1"))])]
              (lit "a@x.com") (lit "pw1")) as (b & Hb & _).
  - vm_compute. reflexivity.
  - exists b. exact Hb.
Defined.

(** C3 (as the code has it).  [requireAuth] redirects exactly when the
    marker is missing or is the empty string; once [setAuthed] has stored an
    email that is not empty, [requireAuth] does not redirect. *)
Theorem C3_requireAuth_iff (st : Storage) :
  (requireAuth st = Some (lit "login.html") ↔
     st !! "auth_user"%string = None ∨ st !! "auth_user"%string = Some []) ∧
  (requireAuth st = None ∨ requireAuth st = Some (lit "login.html")) ∧
  (∀ email, email ≠ [] → requireAuth (setAuthed email st) = None).
Proof.
  unfold requireAuth, setAuthed. split; [|split].
  - destruct (st !! "auth_user"%string) as [[|c e]|]; split; try done; try tauto.
    intros [?|?]; done.
  - destruct (st !! "auth_user"%string) as [[|c e]|]; tauto.
  - intros email Hne. rewrite lookup_insert_eq. destruct email; done.
Qed.

Lemma C3_requireAuth_iff_witness :
  requireAuth (setAuthed (lit "a@x.com") ∅) = None.
Proof.
  destruct (C3_requireAuth_iff ∅) as (_ & _ & H).
  apply H. discriminate.
Defined.

(** The claim C3 as stated fails: after [setAuthed] with the empty email the
    marker is present, and [requireAuth] redirects. *)
Lemma C3_empty_marker_redirects :
  ¬ (∀ (st : Storage) email, requireAuth (setAuthed email st) = None) ∧
  ¬ (∀ st : Storage, requireAuth st = Some (lit "login.html") ↔
                     st !! "auth_user"%string = None).
Proof.
  split.
  - intros H. specialize (H ∅ []). discriminate H.
  - intros H. destruct (H (setAuthed [] ∅)) as [H1 _].
    specialize (H1 eq_refl). discriminate H1.
Qed.

(** C5 (code defect).  An email is authenticable with the password it was
    last registered with, except the email [__proto__]: line 3 then replaces
    the prototype of [users] and adds no record, so in a fresh browser the
    stored mapping stays empty and the login fails. *)
Theorem C5_proto_not_registered (H : Host) password :
  saveUser (lit "__proto__") password ∅ = Normal {["users"%string := lit "{}"]} ∧
  checkUser (lit "__proto__") password {["users"%string := lit "{}"]} = Normal false.
Proof.
  split; [reflexivity|].
  unfold checkUser, load_users. rewrite lookup_singleton_eq.
  change (JSON_parse (or_else (Some (lit "{}")) (lit "{}"))) with (Normal (JObj [])).
  simpl. unfold inherited. destruct (inherits _ _); simpl; [|done].
  unfold inherited. destruct (inherits _ _); done.
Qed.

(** C10.  There is a stored value under [users] that is not JSON, and with
    it in storage [saveUser] and [checkUser] throw instead of returning. *)
Theorem C10_corrupt_users_throws :
  ∃ text, JSON_parse text = Thrown SyntaxError ∧
    ∀ (H : Host) (st : Storage) email password,
      saveUser email password (<["users"%string := text]> st) = Thrown SyntaxError ∧
      checkUser email password (<["users"%string := text]> st) = Thrown SyntaxError.
Proof.
  exists (json_text "{'a@x.com':{'email':"). split; [reflexivity|].
  intros H st email password. apply corrupt_users_throws; done.
Qed.

(** ** The forms *)

Section FormFacts.
Context `{Host}.

(** Both functions read nothing of storage but the [users] item. *)
Lemma checkUser_users st st' e p :
  st !! "users"%string = st' !! "users"%string → checkUser e p st = checkUser e p st'.
Proof. intros Hu. unfold checkUser, load_users. by rewrite Hu. Qed.

Lemma saveUser_users st st' e p :
  st !! "users"%string = st' !! "users"%string →
  saveUser e p st' =
    match saveUser e p st with
    | Normal st1 => Normal (<["users"%string := default [] (st1 !! "users"%string)]> st')
    | Thrown err => Thrown err
    end.
Proof.
  intros Hu. unfold saveUser, load_users. rewrite Hu.
  destruct (JSON_parse _) as [users|err]; simpl; [|done].
  destruct (js_set_object _ _ _) as [users'|err]; simpl; [|done].
  by rewrite lookup_insert_eq.
Qed.

Lemma redefine_same k v props : own k props = Some v → redefine k v props = props.
Proof.
  induction props as [|[k' v'] ps IH]; simpl; [done|].
  case_bool_decide as Hk.
  - intros [= ->]. by subst.
  - intros Hv. by rewrite IH.
Qed.

Lemma define_same k v props : own k props = Some v → define k v props = props.
Proof.
  intros Hv. unfold define.
  rewrite (proj2 (JSFacts.has_own_spec k props)) by (by eapply JSFacts.own_Some_elem).
  by apply redefine_same.
Qed.

Lemma corrupt_users_stay text st :
  JSON_parse text = Thrown SyntaxError → text ≠ [] → st !! "users"%string = Some text →
  ∀ f p, signup_submit f p st = Thrown SyntaxError ∧
         login_submit f p st = Thrown SyntaxError.
Proof.
  intros Hp Hne Hst f p.
  destruct (corrupt_users_throws st text (trim f) p Hp Hne) as [Hs Hc].
  rewrite (insert_id st "users"%string text Hst) in Hs, Hc.
  unfold signup_submit, login_submit. by rewrite Hs, Hc.
Qed.

Lemma session_snoc acts a st : session (acts ++ [a]) st = act a (session acts st).
Proof. unfold session. by rewrite fold_left_app. Qed.

End FormFacts.

(** [JSON.parse] reads back every mapping of credential records that
    [JSON.stringify] wrote, whatever code units the emails and the
    passwords are made of. *)
Theorem credentials_round_trip (H : Host) m :
  credentials m → JSON_parse (JSON_stringify (JObj m)) = Normal (JObj m).
Proof.
  intros Hm. apply JSFacts.JSON_parse_stringify. by apply credentials_storable.
Qed.

Lemma credentials_round_trip_witness :
  let e := [34; 92; 10; 55357] in
  let m := [(e, JObj (record e (lit "p w")))] in
  JSON_parse (JSON_stringify (H := example_host) (JObj m)) = Normal (JObj m).
Proof.
  intros e m. apply (credentials_round_trip example_host m).
  split.
  - simpl. split; [apply not_elem_of_nil|]. split; [exact I|]. constructor.
  - constructor; [|constructor]. exists e, (lit "p w"). reflexivity.
Defined.

(** Signing up, logging out and logging in again.  With the accounts in
    storage as [saveUser] wrote them and an email field that does not trim
    to [__proto__]: the signup handler returns and sends the browser to
    [index.html], where the gate lets it in unless the email trims to the
    empty string; after a logout the gate redirects; and a login with an
    email field that trims to the same email is accepted exactly when the
    password is the one signed up with, code unit for code unit, and
    otherwise alerts and leaves the storage as it was. *)
Theorem signup_logout_login (H : Host) st m f p :
  stored st m → trim f ≠ lit "__proto__" →
  ∃ st1,
    signup_submit f p st = Normal (mkEffect st1 (Some (lit "index.html")) []) ∧
    requireAuth st1 = (if bool_decide (trim f = []) then Some (lit "login.html") else None) ∧
    let st2 := (logout st1).1 in
    requireAuth st2 = Some (lit "login.html") ∧
    ∀ f' p', trim f' = trim f →
      login_submit f' p' st2 =
        Normal (if bool_decide (p' = p)
                then mkEffect (setAuthed (trim f) st2) (Some (lit "index.html")) []
                else mkEffect st2 None [lit "Invalid credentials"]).
Proof.
  intros Hst Hf.
  destruct (saveUser_stored st m (trim f) p Hst (or_introl Hf))
    as (st0 & Hsave & _ & Hcheck).
  exists (setAuthed (trim f) st0). split; [|split; [|split]].
  - unfold signup_submit. by rewrite Hsave.
  - unfold requireAuth, setAuthed. rewrite lookup_insert_eq.
    destruct (trim f); done.
  - unfold requireAuth, logout. simpl. by rewrite lookup_delete_eq.
  - intros f' p' Hf'. unfold login_submit. rewrite Hf'.
    rewrite (checkUser_users _ st0).
    + rewrite Hcheck, (bool_decide_eq_true_2 (trim f = trim f)) by done. simpl.
      destruct (decide (p' = p)) as [->|Hne].
      * by rewrite !bool_decide_eq_true_2.
      * rewrite !bool_decide_eq_false_2; [done|done|]. intros [= ->]. done.
    + unfold logout, setAuthed. simpl.
      by rewrite lookup_delete_ne, lookup_insert_ne.
Qed.

Lemma signup_logout_login_witness :
  ∃ st1,
    signup_submit (H := example_host) (lit " a@x.com ") (lit "pw1") ∅
      = Normal (mkEffect st1 (Some (lit "index.html")) []) ∧
    login_submit (H := example_host) (lit "a@x.com") (lit "pw1") (logout st1).1
      = Normal (mkEffect (setAuthed (lit "a@x.com") (logout st1).1)
                  (Some (lit "index.html")) []).
Proof.
  assert (H0 : stored (H := example_host) ∅ []).
  { split; [split; [done|constructor]|]. right. split; [apply lookup_empty|done]. }
  destruct (signup_logout_login example_host ∅ [] (lit " a@x.com ") (lit "pw1") H0)
    as (st1 & Hs & _ & _ & Hl).
  - vm_compute. discriminate.
  - exists st1. split; [exact Hs|].
    exact (Hl (lit "a@x.com") (lit "pw1") eq_refl).
Defined.

(** An email field that holds nothing but white space.  The signup handler
    registers the empty email, raises the marker with it and sends the
    browser to [index.html], where the gate sends it back to the login page;
    the login handler accepts the same credentials and does the same, the
    storage staying as it is. *)
Theorem blank_email_bounces (H : Host) st m f p :
  stored st m → blank f = true →
  ∃ st1,
    signup_submit f p st = Normal (mkEffect st1 (Some (lit "index.html")) []) ∧
    requireAuth st1 = Some (lit "login.html") ∧
    login_submit f p st1 = Normal (mkEffect st1 (Some (lit "index.html")) []).
Proof.
  intros Hst Hf. pose proof (JSFacts.trim_blank f Hf) as Ht.
  assert (Hne : trim f ≠ lit "__proto__") by (rewrite Ht; vm_compute; discriminate).
  destruct (saveUser_stored st m (trim f) p Hst (or_introl Hne))
    as (st0 & Hsave & _ & Hcheck).
  exists (setAuthed [] st0). split; [|split].
  - unfold signup_submit. by rewrite Hsave, Ht.
  - unfold requireAuth, setAuthed. by rewrite lookup_insert_eq.
  - unfold login_submit. rewrite (checkUser_users _ st0).
    + rewrite Hcheck, (bool_decide_eq_true_2 (trim f = trim f)) by done.
      rewrite bool_decide_eq_true_2 by done. simpl. rewrite Ht.
      unfold setAuthed. by rewrite insert_insert_eq.
    + unfold setAuthed. by rewrite lookup_insert_ne.
Qed.

Lemma blank_email_bounces_witness :
  ∃ st1,
    signup_submit (H := example_host) (lit "   ") (lit "pw1") ∅
      = Normal (mkEffect st1 (Some (lit "index.html")) []) ∧
    requireAuth st1 = Some (lit "login.html").
Proof.
  assert (H0 : stored (H := example_host) ∅ []).
  { split; [split; [done|constructor]|]. right. split; [apply lookup_empty|done]. }
  destruct (blank_email_bounces example_host ∅ [] (lit "   ") (lit "pw1") H0 eq_refl)
    as (st1 & Hs & Hg & _).
  exists st1. split; [exact Hs|exact Hg].
Defined.

(** White space around the email is ignored by both forms. *)
Theorem email_field_trimmed (H : Host) pre f post p st :
  blank pre = true → blank post = true →
  signup_submit (pre ++ f ++ post) p st = signup_submit f p st ∧
  login_submit (pre ++ f ++ post) p st = login_submit f p st.
Proof.
  intros Hpre Hpost. unfold signup_submit, login_submit.
  by rewrite (JSFacts.trim_surrounding pre f post Hpre Hpost).
Qed.

Lemma email_field_trimmed_witness :
  login_submit (H := example_host) ([9; 32] ++ lit "a@x.com" ++ [160; 10]) (lit "pw1") one_user
    = login_submit (H := example_host) (lit "a@x.com") (lit "pw1") one_user.
Proof.
  exact (proj2 (email_field_trimmed example_host [9; 32] (lit "a@x.com") [160; 10]
                  (lit "pw1") one_user eq_refl eq_refl)).
Defined.

(** A [users] item that is not JSON is never repaired.  Whatever the user
    does on the session pages, the item stays as it is, and every signup
    and every login throws: no account can be made or used until the item
    is removed by other means. *)
Theorem corrupt_users_never_repaired (H : Host) text acts st :
  JSON_parse text = Thrown SyntaxError → text ≠ [] → st !! "users"%string = Some text →
  session acts st !! "users"%string = Some text ∧
  ∀ f p, signup_submit f p (session acts st) = Thrown SyntaxError ∧
         login_submit f p (session acts st) = Thrown SyntaxError.
Proof.
  intros Hp Hne Hst.
  assert (Hkeep : session acts st !! "users"%string = Some text).
  { induction acts as [|a acts IH] using rev_ind; [done|].
    rewrite session_snoc.
    destruct a as [f p|f p|]; simpl.
    - by rewrite (proj1 (corrupt_users_stay text _ Hp Hne IH f p)).
    - by rewrite (proj2 (corrupt_users_stay text _ Hp Hne IH f p)).
    - by rewrite lookup_delete_ne. }
  split; [exact Hkeep|]. exact (corrupt_users_stay text _ Hp Hne Hkeep).
Qed.

Lemma corrupt_users_never_repaired_witness :
  let st : Storage := {["users"%string := lit "{oops"]} in
  session (H := example_host) [Signup (lit "a@x.com") (lit "pw1"); Logout] st
    !! "users"%string = Some (lit "{oops").
Proof.
  intros st.
  refine (proj1 (corrupt_users_never_repaired example_host (lit "{oops")
                   [Signup (lit "a@x.com") (lit "pw1"); Logout] st _ _ _)).
  - reflexivity.
  - vm_compute. discriminate.
  - reflexivity.
Defined.

(** After a logout the gate redirects, whatever went before, and the
    accounts are as they were: logging out forgets nobody. *)
Theorem logout_ends_session (H : Host) acts st e p :
  let st' := session (acts ++ [Logout]) st in
  requireAuth st' = Some (lit "login.html") ∧
  checkUser e p st' = checkUser e p (session acts st).
Proof.
  intros st'. unfold st'. rewrite session_snoc. simpl. split.
  - unfold requireAuth. by rewrite lookup_delete_eq.
  - apply checkUser_users. by rewrite lookup_delete_ne.
Qed.

(** Signing up a second time with the same fields changes nothing: the
    handler returns again and the storage stays as the first signup left
    it.  No account is listed twice. *)
Theorem signup_again_changes_nothing (H : Host) st m f p eff :
  stored st m → trim f ≠ lit "__proto__" →
  signup_submit f p st = Normal eff →
  signup_submit f p (storage eff) = Normal eff.
Proof.
  intros Hst Hf.
  destruct (saveUser_stored st m (trim f) p Hst (or_introl Hf))
    as (st0 & Hsave & Hst0 & _).
  unfold signup_submit at 1. rewrite Hsave. simpl. intros [= <-]. simpl.
  assert (Hin : trim f ∈ (define (trim f) (JObj (record (trim f) p)) m).*1).
  { eapply JSFacts.own_Some_elem. rewrite JSFacts.own_define. by rewrite bool_decide_eq_true_2. }
  destruct (saveUser_stored st0 _ (trim f) p Hst0 (or_intror Hin))
    as (st3 & Hsave3 & Hst3 & _).
  rewrite define_same in Hst3
    by (rewrite JSFacts.own_define; by rewrite bool_decide_eq_true_2).
  unfold signup_submit.
  rewrite (saveUser_users st0 (setAuthed (trim f) st0))
    by (unfold setAuthed; by rewrite lookup_insert_ne).
  rewrite Hsave3. simpl.
  destruct Hst0 as [_ [Hu0|[Hu0 Hm0]]], Hst3 as [_ [Hu3|[Hu3 Hm3]]].
  - rewrite Hu3. simpl. unfold setAuthed.
    rewrite (insert_id (<["auth_user"%string := trim f]> st0))
      by (by rewrite lookup_insert_ne).
    by rewrite insert_insert_eq.
  - exfalso. rewrite Hm3 in Hin. by apply elem_of_nil in Hin.
  - exfalso. rewrite Hm0 in Hin. by apply elem_of_nil in Hin.
  - exfalso. rewrite Hm0 in Hin. by apply elem_of_nil in Hin.
Qed.

Lemma signup_again_changes_nothing_witness :
  ∃ eff,
    signup_submit (H := example_host) (lit "a@x.com") (lit "pw1") ∅ = Normal eff ∧
    signup_submit (H := example_host) (lit "a@x.com") (lit "pw1") (storage eff) = Normal eff.
Proof.
  assert (H0 : stored (H := example_host) ∅ []).
  { split; [split; [done|constructor]|]. right. split; [apply lookup_empty|done]. }
  eexists. split; [reflexivity|].
  apply (signup_again_changes_nothing example_host ∅ [] (lit "a@x.com") (lit "pw1") _ H0).
  - vm_compute. discriminate.
  - reflexivity.
Defined.

(** Where nobody has signed up (no [users] item, or an empty one) every
    login is refused with the alert and the storage stays as it is, also
    for a name that every object inherits, such as [toString]. *)
Theorem nobody_signed_up (H : Host) st f p :
  st !! "users"%string = None ∨ st !! "users"%string = Some [] →
  login_submit f p st = Normal (mkEffect st None [lit "Invalid credentials"]).
Proof.
  intros Hst.
  assert (Hload : load_users st = Normal (JObj [])).
  { unfold load_users. destruct Hst as [->| ->]; reflexivity. }
  destruct (checkUser_mapping st [] (trim f) p Hload) as (b & Hb & Hiff).
  unfold login_submit. rewrite Hb. simpl.
  destruct b; [|done].
  destruct (proj1 Hiff eq_refl) as (r & Hr & _). discriminate Hr.
Qed.

Lemma nobody_signed_up_witness :
  login_submit (H := example_host) (lit "toString") (lit "pw1") ∅
    = Normal (mkEffect ∅ None [lit "Invalid credentials"]).
Proof.
  apply (nobody_signed_up example_host ∅ (lit "toString") (lit "pw1")).
  left. apply lookup_empty.
Defined.

Lemma last_write_wins_witness :
  ∃ st,
    saveUsers (H := example_host)
      [(lit "a@x.com", lit "old"); (lit "b@x.com", lit "pw2"); (lit "a@x.com", lit "new")] ∅
      = Normal st ∧
    checkUser (H := example_host) (lit "a@x.com") (lit "new") st = Normal true ∧
    checkUser (H := example_host) (lit "a@x.com") (lit "old") st = Normal false.
Proof.
  destruct (last_write_wins (H := example_host)
              [(lit "a@x.com", lit "old"); (lit "b@x.com", lit "pw2");
               (lit "a@x.com", lit "new")]) as (st & Hs & Hc).
  - repeat constructor; vm_compute; discriminate.
  - exists st. split; [exact Hs|]. split; apply Hc.
Defined.

End AuthFacts.

(** * Properties of the batch paths *)

Module BatchFacts.
Import JS Batch.

(** Whatever the [try] block does, a handler whose [catch] block returns
    ends with its [finally] block. *)
Lemma try_catch_finally_ends (P : Dom → Prop) body handler final d :
  (∀ e d0, ∃ d1, handler e d0 = Ret tt d1) →
  (∀ d0, ∃ d1, final d0 = Ret tt d1 ∧ P d1) →
  ∃ d', try_catch_finally body handler final d = Ret tt d' ∧ P d'.
Proof.
  intros Hh Hf. unfold try_catch_finally.
  destruct (body d) as [[] d1|e d1].
  - apply Hf.
  - destruct (Hh e d1) as (d2 & ->). apply Hf.
Qed.

Lemma alert_returns message d : ∃ d1, alert message d = Ret tt d1.
Proof. eexists. reflexivity. Qed.

(** Without a file the handlers alert and do nothing else: no request is
    made and the control is not touched. *)
Lemma no_file_no_request (H : Host) (D : Display) d r :
  (imageInput d = None →
   run_task (submitImage_click r) d
   = set_alerts (alerts d ++ [lit "Choose an image first."]) d) ∧
  (videoFile d = None →
   run_task (submitVideo_click r) d
   = set_alerts (alerts d ++ [lit "Choose a video first."]) d).
Proof.
  split; intros Hf; unfold run_task, submitImage_click, submitVideo_click,
    submitImage_begin, submitVideo_begin, mbind, M_bind, gets; simpl; by rewrite Hf.
Qed.

Example strip_extension_examples :
  strip_extension (lit "cat.png") = lit "cat" ∧
  strip_extension (lit "a.b.c") = lit "a.b" ∧
  strip_extension (lit "noext") = lit "noext" ∧
  strip_extension (lit "dot.") = lit "dot." ∧
  strip_extension (lit ".bashrc") = [].
Proof. repeat split; reflexivity. Qed.

(** ** The name of the download *)

Lemma no_dot_forallb s : forallb (λ x, negb (x =? 46)) s = true ↔ 46 ∉ s.
Proof.
  induction s as [|c s IH]; simpl.
  - split; [intros _; apply not_elem_of_nil|done].
  - rewrite andb_true_iff, IH, not_elem_of_cons, negb_true_iff, N.eqb_neq.
    split; intros [? ?]; split; congruence.
Qed.

Lemma strip_extension_no_dot s : 46 ∉ s → strip_extension s = s.
Proof.
  induction s as [|c s IH]; simpl; [done|].
  rewrite not_elem_of_cons. intros [Hc Hs].
  rewrite (proj2 (N.eqb_neq c 46)) by congruence. simpl. by rewrite IH.
Qed.

(** The download is named after the file without its last extension: what
    follows the last dot is cut off together with the dot, unless nothing
    follows it; a name without a dot stays as it is.  Only one extension is
    cut, and a name that is all extension leaves the empty name. *)
Theorem strip_extension_spec base ext :
  46 ∉ ext →
  strip_extension (base ++ 46 :: ext) = (if bool_decide (ext = []) then base ++ [46] else base) ∧
  strip_extension ext = ext.
Proof.
  intros Hext. split; [|by apply strip_extension_no_dot].
  induction base as [|c base IH]; simpl.
  - rewrite (proj2 (no_dot_forallb ext) Hext), andb_true_r.
    case_bool_decide as He; [by subst|done].
  - assert (Hdot : forallb (λ x, negb (x =? 46)) (base ++ 46 :: ext) = false).
    { apply not_true_iff_false. rewrite no_dot_forallb. intros Hn. apply Hn.
      apply elem_of_app. right. apply elem_of_cons. by left. }
    rewrite Hdot, andb_false_r, IH. by case_bool_decide.
Qed.

Lemma strip_extension_spec_witness :
  strip_extension (lit "holiday.2024" ++ 46 :: lit "jpeg") = lit "holiday.2024".
Proof.
  refine (proj1 (strip_extension_spec (lit "holiday.2024") (lit "jpeg") _)).
  apply no_dot_forallb. reflexivity.
Defined.

(** ** One request for each submission *)

Section Outcomes.
Context `{Host} `{Display}.

(** Reading a property throws only on [null]. *)
Lemma js_get_returns data k : data ≠ JNull → ∃ x, js_get (VJson data) k = Normal x.
Proof. destruct data; simpl; eauto. done. Qed.

End Outcomes.

(** A submission of an image makes exactly one request, to [/api/process],
    with the file and the colour and confidence the page showed at the
    click; it is never made again, however it goes.  When the server
    answers with a 2xx status and a body that can be read, no alert is
    raised, the result image is shown in place of the result video, and the
    download link points at the same object under the name of the file with
    [_annotated.jpg] for its extension.  In every other case the user is
    told why, once, and the page shows what it showed before: the earlier
    result and its download link stay. *)
Theorem image_outcome d file r :
  imageInput d = Some file →
  let d' := run_task (submitImage_click r) d in
  let failed message :=
    alerts d' = alerts d ++ [lit "Failed: " ++ message] ∧
    output d' = output d ∧ outputVideo d' = outputVideo d ∧
    downloadImage d' = downloadImage d in
  requests d' = requests d ++ [mkRequest (API (lit "/api/process")) (lit "file") file
                                 (colorSel d) (confRange d)] ∧
  match r with
  | Response true (Body url) =>
      alerts d' = alerts d ∧
      output d' = mkMedia url false ∧
      outputVideo d' = mkMedia (src (outputVideo d)) true ∧
      downloadImage d' = mkLink url (strip_extension (file_name file) ++ lit "_annotated.jpg")
                           (lit "inline-block")
  | Response true (BodyError message) => failed message
  | Response false _ => failed (lit "Server error")
  | NetworkError message => failed message
  end.
Proof.
  intros Hf. destruct d; simpl in Hf; subst.
  destruct r as [message|[] [message|url]]; repeat split; reflexivity.
Qed.

Lemma image_outcome_witness :
  let d' := run_task (submitImage_click (Response false (Body []))) page_with_image in
  alerts d' = [lit "Failed: Server error"] ∧ length (requests d') = 1%nat.
Proof.
  intros d'.
  destruct (image_outcome page_with_image (mkFile (lit "cat.png"))
              (Response false (Body [])) eq_refl) as (Hr & Ha & _).
  split; [exact Ha|exact (f_equal length Hr)].
Defined.



Lemma no_file_no_request_witness :
  requests (run_task (submitImage_click (Response true (Body []))) page_with_video) = [] ∧
  requests (run_task (submitVideo_click (H := example_host) (H0 := example_display)
                        (Response true (Body []))) page_with_image) = [].
Proof.
  destruct (no_file_no_request example_host example_display page_with_video
              (Response true (Body []))) as [Hi _].
  destruct (no_file_no_request example_host example_display page_with_image
              (Response true (Body []))) as [_ Hv].
  rewrite (Hi eq_refl), (Hv eq_refl). split; reflexivity.
Defined.

(** C9.  For each flow on its own, whatever the other file input holds,
    and however the request goes (the fetch is rejected, the status is not
    2xx, the body cannot be read or is not what was expected, or all goes
    well), a submission first disables its control with the label
    [Processing…] and in the end leaves it enabled with its label,
    [Submit Image] or [Submit Video]. *)
Theorem C9_controls_restored (H : Host) (D : Display) d r :
  (∀ image, imageInput d = Some image →
     ∃ d1 d2,
       submitImage_begin d = Ret (Some image) d1 ∧
       submitImage d1 = mkControl true processing ∧
       submitImage_click r d = Ret tt d2 ∧
       submitImage d2 = mkControl false (lit "Submit Image")) ∧
  (∀ video, videoFile d = Some video →
     ∃ d1 d2,
       submitVideo_begin d = Ret (Some video) d1 ∧
       submitVideo d1 = mkControl true processing ∧
       submitVideo_click r d = Ret tt d2 ∧
       submitVideo d2 = mkControl false (lit "Submit Video")).
Proof.
  split.
  - intros image Hi. unfold submitImage_click, submitImage_begin.
    unfold mbind, M_bind, gets; simpl. rewrite Hi; simpl.
    eexists.
    destruct (try_catch_finally_ends
      (λ d, submitImage d = mkControl false (lit "Submit Image"))
      (submitImage_try image r) (λ message, alert (lit "Failed: " ++ message))
      (modify (set_submitImage (mkControl false (lit "Submit Image"))))
      (set_submitImage (mkControl true processing) d)) as (d2 & Hd2 & Hc).
    + intros e d0. apply alert_returns.
    + intros d0. eexists. split; reflexivity.
    + exists d2. split; [reflexivity|]. split; [reflexivity|]. split; [exact Hd2|exact Hc].
  - intros video Hv. unfold submitVideo_click, submitVideo_begin.
    unfold mbind, M_bind, gets; simpl. rewrite Hv; simpl.
    eexists.
    match goal with |- context [try_catch_finally ?b ?h ?f ?d0] =>
      destruct (try_catch_finally_ends
        (λ d, submitVideo d = mkControl false (lit "Submit Video")) b h f d0)
        as (d2 & Hd2 & Hc)
    end.
    + intros e d0. apply alert_returns.
    + intros d0. eexists. split; reflexivity.
    + exists d2. split; [reflexivity|]. split; [reflexivity|]. split; [exact Hd2|exact Hc].
Qed.

Lemma C9_controls_restored_witness :
  let r := Response false (Body (lit "Internal Server Error")) in
  submitImage (run_task (submitImage_click r) page_with_image)
    = submitImage page_with_image ∧
  submitVideo (run_task (submitVideo_click (H := example_host) (H0 := example_display) r)
                 page_with_video)
    = submitVideo page_with_video.
Proof.
  intros r. split.
  - destruct (proj1 (C9_controls_restored example_host example_display page_with_image r)
                (mkFile (lit "cat.png")) eq_refl) as (_ & d2 & _ & _ & Hi & Hci).
    unfold run_task. rewrite Hi. exact Hci.
  - destruct (proj2 (C9_controls_restored example_host example_display page_with_video r)
                (mkFile (lit "street.mp4")) eq_refl) as (_ & d2 & _ & _ & Hv & Hcv).
    unfold run_task. rewrite Hv. exact Hcv.
Defined.

End BatchFacts.
